(** * shed: typed indexes over an ordered key/value store

    A shallow embedding of package [shed] (index.go): the [Item] record
    with its [Merge] law, the [Index] closures built by [NewIndex], the
    index operations [Get], [Fill], [Has], [HasMulti], [Put], [Delete],
    [Iterate], [First], [Last], [Count], [CountFrom], and the byte-slice
    successor [incByteSlice].

    Conventions.
    - A Go [byte] is a [Z] in the range 0..255 ([is_byte]); arithmetic that
      could leave the range is reduced modulo 256 explicitly.
    - A key or a value travelling between the index and the database is a
      [list Z]; the two byte-slice fields of [Item] are [option (list Z)],
      where [None] is Go's nil slice, because [Merge] tests them against nil.
    - A Go function returning [(x, err)] returns a pair [x * option error];
      [None] is the nil error.
    - The database handle [*DB] is shared mutable state: operations that
      write take the store and return the new one.
    - A run-time panic (slicing out of range) is the [None] of an outer
      [option]. *)

From Stdlib Require Import ZArith Lia Bool String.
From stdpp Require Import base option list gmap.

Local Open Scope Z_scope.

(** ** Bytes *)

Abbreviation bytes := (list Z).

Definition is_byte (x : Z) : Prop := 0 <= x < 256.

Definition wf_bytes (b : bytes) : Prop := Forall is_byte b.

(** [bytes.Compare]: lexicographic comparison of two byte strings. *)
Fixpoint Compare (a b : bytes) : comparison :=
  match a, b with
  | [], [] => Eq
  | [], _ :: _ => Lt
  | _ :: _, [] => Gt
  | x :: a', y :: b' =>
      match x ?= y with
      | Eq => Compare a' b'
      | c => c
      end
  end.

(** [bytes.Equal] *)
Definition Equal (a b : bytes) : bool :=
  match Compare a b with Eq => true | _ => false end.

(** [bytes.HasPrefix] *)
Fixpoint HasPrefix (s prefix : bytes) : bool :=
  match prefix, s with
  | [], _ => true
  | _ :: _, [] => false
  | p :: prefix', x :: s' => (x =? p) && HasPrefix s' prefix'
  end.

(** ** Errors *)

Inductive error : Type :=
| ErrNotFound                 (* shed.ErrNotFound *)
| ErrKeyNotFound              (* badger.ErrKeyNotFound *)
| ErrOther (msg : string).    (* any other error value, e.g. a codec's *)

Definition error_eqb (a b : error) : bool :=
  match a, b with
  | ErrNotFound, ErrNotFound => true
  | ErrKeyNotFound, ErrKeyNotFound => true
  | ErrOther s, ErrOther t => String.eqb s t
  | _, _ => false
  end.

(** ** Item *)

Record Item : Type := mkItem {
  Address : option bytes;
  Data : option bytes;
  AccessTimestamp : Z;
  StoreTimestamp : Z;
  BinID : Z;
  PinCounter : Z;
  Tag : Z
}.

(** The zero value of [Item] (what a named result holds before it is
    assigned). *)
Definition zeroItem : Item := mkItem None None 0 0 0 0 0.

Definition set_Address (v : option bytes) (i : Item) : Item :=
  mkItem v (Data i) (AccessTimestamp i) (StoreTimestamp i) (BinID i) (PinCounter i) (Tag i).
Definition set_Data (v : option bytes) (i : Item) : Item :=
  mkItem (Address i) v (AccessTimestamp i) (StoreTimestamp i) (BinID i) (PinCounter i) (Tag i).
Definition set_AccessTimestamp (v : Z) (i : Item) : Item :=
  mkItem (Address i) (Data i) v (StoreTimestamp i) (BinID i) (PinCounter i) (Tag i).
Definition set_StoreTimestamp (v : Z) (i : Item) : Item :=
  mkItem (Address i) (Data i) (AccessTimestamp i) v (BinID i) (PinCounter i) (Tag i).
Definition set_BinID (v : Z) (i : Item) : Item :=
  mkItem (Address i) (Data i) (AccessTimestamp i) (StoreTimestamp i) v (PinCounter i) (Tag i).
Definition set_PinCounter (v : Z) (i : Item) : Item :=
  mkItem (Address i) (Data i) (AccessTimestamp i) (StoreTimestamp i) (BinID i) v (Tag i).
Definition set_Tag (v : Z) (i : Item) : Item :=
  mkItem (Address i) (Data i) (AccessTimestamp i) (StoreTimestamp i) (BinID i) (PinCounter i) v.

Definition is_nil (s : option bytes) : bool :=
  match s with None => true | Some _ => false end.

(** [func (i Item) Merge(i2 Item) (new Item)]: the receiver is a copy that
    is updated field by field and returned. *)
Definition Merge (i i2 : Item) : Item :=
  let i := if is_nil (Address i) then set_Address (Address i2) i else i in
  let i := if is_nil (Data i) then set_Data (Data i2) i else i in
  let i := if AccessTimestamp i =? 0 then set_AccessTimestamp (AccessTimestamp i2) i else i in
  let i := if StoreTimestamp i =? 0 then set_StoreTimestamp (StoreTimestamp i2) i else i in
  let i := if BinID i =? 0 then set_BinID (BinID i2) i else i in
  let i := if PinCounter i =? 0 then set_PinCounter (PinCounter i2) i else i in
  let i := if Tag i =? 0 then set_Tag (Tag i2) i else i in
  i.

(** A uniform view of the seven fields, used to state field-wise laws. *)
Inductive field : Type :=
| FAddress | FData | FAccessTimestamp | FStoreTimestamp | FBinID | FPinCounter | FTag.

Inductive fvalue : Type :=
| VBytes (s : option bytes)
| VInt (n : Z).

Definition get_field (f : field) (i : Item) : fvalue :=
  match f with
  | FAddress => VBytes (Address i)
  | FData => VBytes (Data i)
  | FAccessTimestamp => VInt (AccessTimestamp i)
  | FStoreTimestamp => VInt (StoreTimestamp i)
  | FBinID => VInt (BinID i)
  | FPinCounter => VInt (PinCounter i)
  | FTag => VInt (Tag i)
  end.

(** The zero value of a field: nil for a byte slice, 0 for an integer. *)
Definition is_zero (v : fvalue) : bool :=
  match v with
  | VBytes s => is_nil s
  | VInt n => n =? 0
  end.

(** ** incByteSlice *)

(** The loop [for i := l - 1; i >= 0; i--] of [incByteSlice]; [n] is
    [i + 1], [next] the copy being written. *)
Fixpoint incLoop (n : nat) (b next : bytes) : option bytes :=
  match n with
  | O => None
  | S i =>
      if b !!! i =? 255
      then incLoop i b (<[i := 0]> next)
      else Some (<[i := (b !!! i + 1) mod 256]> next)
  end.

(** [func incByteSlice(b []byte) (next []byte)]; [None] is the nil slice. *)
Definition incByteSlice (b : bytes) : option bytes :=
  let l := length b in
  let next := b in
  incLoop l b next.

(** ** The database facade and the engine's read transaction *)

(** Modelled from the spec: the [DB] facade (db.go: [Get], [Has], [Put],
    [Delete], [Iterate], [First], [Last], [CountPrefix], [CountFrom]) is
    not among the sources.  The model follows section 4.2: an ordered
    key/value store, kept as an association list ascending by key, with
    point reads and writes, forward iteration from a start key with
    [stop]/[err] termination, smallest and largest key under a prefix, and
    exhaustive counts.  Engine I/O failures are outside the model. *)
Module DB.

Definition store : Type := list (bytes * bytes).

Fixpoint lookup (d : store) (key : bytes) : option bytes :=
  match d with
  | [] => None
  | (k, v) :: d' => if Equal k key then Some v else lookup d' key
  end.

Fixpoint insert (key value : bytes) (d : store) : store :=
  match d with
  | [] => [(key, value)]
  | (k, v) :: d' =>
      match Compare key k with
      | Lt => (key, value) :: d
      | Eq => (key, value) :: d'
      | Gt => (k, v) :: insert key value d'
      end
  end.

Fixpoint remove (key : bytes) (d : store) : store :=
  match d with
  | [] => []
  | (k, v) :: d' => if Equal k key then d' else (k, v) :: remove key d'
  end.

(** The entries whose key is at or after [key], in ascending order. *)
Fixpoint seek (d : store) (key : bytes) : store :=
  match d with
  | [] => []
  | (k, v) :: d' =>
      match Compare k key with
      | Lt => seek d' key
      | _ => d
      end
  end.

Definition under (prefix : bytes) (d : store) : store :=
  List.filter (fun kv => HasPrefix (fst kv) prefix) d.

Definition Get (d : store) (key : bytes) : bytes * option error :=
  match lookup d key with
  | Some v => (v, None)
  | None => ([], Some ErrNotFound)
  end.

Definition Has (d : store) (key : bytes) : bool * option error :=
  (match lookup d key with Some _ => true | None => false end, None).

Definition Put (d : store) (key value : bytes) : store * option error :=
  (insert key value d, None).

Definition Delete (d : store) (key : bytes) : store * option error :=
  (remove key d, None).

(** The walk of [Iterate] over the entries from the start key on.  The
    callback is a Go closure: it threads its captured state [S], and the
    outer [option] is a panic raised inside it. *)
Fixpoint iterLoop {S : Type} (startKey : bytes) (skipStartKey : bool)
    (fn : bytes -> bytes -> S -> option ((bool * option error) * S))
    (kvs : store) (s : S) : option (option error * S) :=
  match kvs with
  | [] => Some (None, s)
  | (k, v) :: rest =>
      if skipStartKey && Equal k startKey
      then iterLoop startKey skipStartKey fn rest s
      else
        match fn k v s with
        | None => None
        | Some ((_, Some e), s') => Some (Some e, s')
        | Some ((true, None), s') => Some (None, s')
        | Some ((false, None), s') => iterLoop startKey skipStartKey fn rest s'
        end
  end.

Definition Iterate {S : Type} (d : store) (startKey : bytes) (skipStartKey : bool)
    (fn : bytes -> bytes -> S -> option ((bool * option error) * S))
    (s : S) : option (option error * S) :=
  iterLoop startKey skipStartKey fn (seek d startKey) s.

Definition First (d : store) (prefix : bytes) : (bytes * bytes) * option error :=
  match under prefix d with
  | kv :: _ => (kv, None)
  | [] => (([], []), Some ErrNotFound)
  end.

Definition Last (d : store) (prefix : bytes) : (bytes * bytes) * option error :=
  match List.rev (under prefix d) with
  | kv :: _ => (kv, None)
  | [] => (([], []), Some ErrNotFound)
  end.

Definition CountPrefix (d : store) (prefix : bytes) : Z * option error :=
  (Z.of_nat (length (under prefix d)), None).

Definition CountFrom (d : store) (startKey : bytes) : Z * option error :=
  (Z.of_nat (length (seek d startKey)), None).

(** The store invariant: keys strictly ascending. *)
Fixpoint ascending (d : store) : Prop :=
  match d with
  | [] => True
  | (k, _) :: d' =>
      match d' with
      | [] => True
      | (k', _) :: _ => Compare k k' = Lt
      end /\ ascending d'
  end.

End DB.

(** Modelled from the spec: the engine's transaction ([badger.Txn], an
  external library) as the index uses it.  A read transaction is a
  snapshot of the store; [Get] reports an absent key with
  [badger.ErrKeyNotFound]; an iterator's [Seek] lands on the first entry
  at or after the key, and is not [Valid] when there is none.  A write
  batch accumulates sets and deletes. *)
Module Txn.

Definition txn : Type := DB.store.

(** [db.GetBatch(false)] *)
Definition GetBatch (d : DB.store) : txn := d.

Definition Get (t : txn) (key : bytes) : bytes * option error :=
  match DB.lookup t key with
  | Some v => (v, None)
  | None => ([], Some ErrKeyNotFound)
  end.

(** [it.Seek(key)] followed by [it.Valid()] / [it.Item()]: [None] is an
    invalid iterator. *)
Definition Seek (t : txn) (key : bytes) : option (bytes * bytes) :=
  head (DB.seek t key).

Inductive write : Type :=
| WSet (key value : bytes)
| WDelete (key : bytes).

Definition batch : Type := list write.

Definition Set_ (b : batch) (key value : bytes) : batch * option error :=
  (b ++ [WSet key value], None).

Definition Delete (b : batch) (key : bytes) : batch * option error :=
  (b ++ [WDelete key], None).

End Txn.

(** ** Index *)

(** [IndexFuncs]: the four user codecs. *)
Record IndexFuncs : Type := mkIndexFuncs {
  EncodeKey : Item -> bytes * option error;
  DecodeKey : bytes -> Item * option error;
  EncodeValue : Item -> bytes * option error;
  DecodeValue : Item -> bytes -> Item * option error
}.

(** [Index].  The [db] handle is the store the operations take as an
    argument; the logger does not influence any result and is left out.
    [decodeKeyFunc] slices its argument and may therefore panic. *)
Record Index : Type := mkIndex {
  prefix : bytes;
  encodeKeyFunc : Item -> bytes * option error;
  decodeKeyFunc : bytes -> option (Item * option error);
  encodeValueFunc : Item -> bytes * option error;
  decodeValueFunc : Item -> bytes -> Item * option error
}.

(** [func (db *DB) NewIndex(name string, funcs IndexFuncs) (f Index, err error)],
    on the path where [db.schemaIndexPrefix(name)] (schema.go, not among the
    sources) has returned the prefix byte [id] without error. *)
Definition NewIndex (id : Z) (funcs : IndexFuncs) : Index :=
  let prefix := [id] in
  {| prefix := prefix;
     encodeKeyFunc := fun e =>
       let '(key, err) := EncodeKey funcs e in
       match err with
       | Some e => ([], Some e)
       | None => (([] ++ prefix) ++ key, None)
       end;
     decodeKeyFunc := fun key =>
       match key with
       | [] => None                             (* key[1:] out of range *)
       | _ :: key1 => Some (DecodeKey funcs key1)
       end;
     encodeValueFunc := EncodeValue funcs;
     decodeValueFunc := DecodeValue funcs |}.

(** [func (f Index) Get(keyFields Item) (out Item, err error)] *)
Definition Get (f : Index) (keyFields : Item) (d : DB.store) : Item * option error :=
  let out := zeroItem in
  let '(key, err) := encodeKeyFunc f keyFields in
  match err with
  | Some e => (out, Some e)
  | None =>
      let '(value, err) := DB.Get d key in
      match err with
      | Some e => (out, Some e)
      | None =>
          let '(out, err) := decodeValueFunc f keyFields value in
          match err with
          | Some e => (out, Some e)
          | None => (Merge out keyFields, None)
          end
      end
  end.

(** The loop of [Fill]: [n] entries remain, [i] is the current index, and
    [items] is the caller's slice, written in place. *)
Fixpoint fillLoop (f : Index) (t : Txn.txn) (n i : nat) (items : list Item)
    : list Item * option error :=
  match n with
  | O => (items, None)
  | S n' =>
      match items !! i with
      | None => (items, None)
      | Some item =>
          let '(key, err) := encodeKeyFunc f item in
          match err with
          | Some e => (items, Some e)
          | None =>
              let '(val, err) := Txn.Get t key in
              match err with
              | Some e =>
                  if error_eqb e ErrKeyNotFound
                  then (items, Some ErrNotFound)
                  else (items, Some e)
              | None =>
                  let '(decodedItem, err) := decodeValueFunc f item val in
                  match err with
                  | Some e => (items, Some e)
                  | None => fillLoop f t n' (S i) (<[i := Merge decodedItem item]> items)
                  end
              end
          end
      end
  end.

(** [func (f Index) Fill(items []Item) (err error)]; the first component
    is the caller's slice after the call. *)
Definition Fill (f : Index) (items : list Item) (d : DB.store) : list Item * option error :=
  let txn := Txn.GetBatch d in
  fillLoop f txn (length items) 0 items.

(** [func (f Index) Has(keyFields Item) (bool, error)] *)
Definition Has (f : Index) (keyFields : Item) (d : DB.store) : bool * option error :=
  let '(key, err) := encodeKeyFunc f keyFields in
  match err with
  | Some e => (false, Some e)
  | None => DB.Has d key
  end.

(** The loop of [HasMulti] over [items] from index [i] on. *)
Fixpoint hasMultiLoop (f : Index) (it : Txn.txn) (items : list Item) (i : nat)
    (have : list bool) : list bool * option error :=
  match items with
  | [] => (have, None)
  | keyFields :: rest =>
      let '(key, err) := encodeKeyFunc f keyFields in
      match err with
      | Some e => ([], Some e)
      | None =>
          match Txn.Seek it key with
          | None => hasMultiLoop f it rest (S i) (<[i := false]> have)
          | Some (k, _) =>
              if Equal key k
              then hasMultiLoop f it rest (S i) (<[i := true]> have)
              else hasMultiLoop f it rest (S i) have
          end
      end
  end.

(** [func (f Index) HasMulti(items ...Item) ([]bool, error)]; the nil
    result of the error path is the empty list. *)
Definition HasMulti (f : Index) (items : list Item) (d : DB.store) : list bool * option error :=
  let have := replicate (length items) false in
  let txn := Txn.GetBatch d in
  hasMultiLoop f txn items 0 have.

(** [func (f Index) Put(i Item) (err error)] *)
Definition Put (f : Index) (i : Item) (d : DB.store) : DB.store * option error :=
  let '(key, err) := encodeKeyFunc f i in
  match err with
  | Some e => (d, Some e)
  | None =>
      let '(value, err) := encodeValueFunc f i in
      match err with
      | Some e => (d, Some e)
      | None => DB.Put d key value
      end
  end.

(** [func (f Index) PutInBatch(batch *badger.Txn, i Item) (err error)] *)
Definition PutInBatch (f : Index) (batch : Txn.batch) (i : Item) : Txn.batch * option error :=
  let '(key, err) := encodeKeyFunc f i in
  match err with
  | Some e => (batch, Some e)
  | None =>
      let '(value, err) := encodeValueFunc f i in
      match err with
      | Some e => (batch, Some e)
      | None => Txn.Set_ batch key value
      end
  end.

(** [func (f Index) Delete(keyFields Item) (err error)] *)
Definition Delete (f : Index) (keyFields : Item) (d : DB.store) : DB.store * option error :=
  let '(key, err) := encodeKeyFunc f keyFields in
  match err with
  | Some e => (d, Some e)
  | None => DB.Delete d key
  end.

(** [func (f Index) DeleteInBatch(batch *badger.Txn, keyFields Item) (err error)] *)
Definition DeleteInBatch (f : Index) (batch : Txn.batch) (keyFields : Item)
    : Txn.batch * option error :=
  let '(key, err) := encodeKeyFunc f keyFields in
  match err with
  | Some e => (batch, Some e)
  | None => Txn.Delete batch key
  end.

(** [IndexIterFunc]: a callback closure over captured state [S]. *)
Definition IndexIterFunc (S : Type) : Type := Item -> S -> (bool * option error) * S.

(** [IterateOptions]; [StartFrom] is a pointer, [None] when nil. *)
Record IterateOptions : Type := mkIterateOptions {
  StartFrom : option Item;
  SkipStartFromItem : bool;
  Prefix : bytes
}.

(** [func (f Index) itemFromKeyValue(key, value, totalPrefix []byte) (i Item, err error)] *)
Definition itemFromKeyValue (f : Index) (key value totalPrefix : bytes)
    : option (Item * option error) :=
  let i := zeroItem in
  if negb (HasPrefix key totalPrefix) then Some (i, Some ErrKeyNotFound)
  else
    match decodeKeyFunc f ([] ++ key) with
    | None => None
    | Some (keyItem, Some e) => Some (i, Some e)
    | Some (keyItem, None) =>
        let '(valueItem, err) := decodeValueFunc f keyItem ([] ++ value) in
        match err with
        | Some e => Some (i, Some e)
        | None => Some (Merge keyItem valueItem, None)
        end
    end.

(** The closure [Iterate] hands to [db.Iterate]. *)
Definition iterateCallback {S : Type} (f : Index) (fn : IndexIterFunc S) (prefix : bytes)
    (key value : bytes) (s : S) : option ((bool * option error) * S) :=
  match itemFromKeyValue f key value prefix with
  | None => None
  | Some (item, Some e) =>
      if error_eqb e ErrKeyNotFound
      then Some ((true, None), s)
      else Some ((false, Some e), s)
  | Some (item, None) => Some (fn item s)
  end.

(** [func (f Index) Iterate(fn IndexIterFunc, options *IterateOptions) (err error)] *)
Definition Iterate {S : Type} (f : Index) (fn : IndexIterFunc S)
    (options : option IterateOptions) (d : DB.store) (s : S) : option (option error * S) :=
  let options :=
    match options with
    | None => mkIterateOptions None false []
    | Some o => o
    end in
  let prefix := prefix f ++ Prefix options in
  let '(startKey, err) :=
    match StartFrom options with
    | Some start => encodeKeyFunc f start
    | None => (prefix, None)
    end in
  match err with
  | Some e => Some (Some e, s)
  | None => DB.Iterate d startKey (SkipStartFromItem options) (iterateCallback f fn prefix) s
  end.

(** [func (f Index) First(prefix []byte) (i Item, err error)] *)
Definition First (f : Index) (prefix_ : bytes) (d : DB.store) : option (Item * option error) :=
  let i := zeroItem in
  let totalPrefix := prefix f ++ prefix_ in
  let '((k, v), err) := DB.First d totalPrefix in
  match err with
  | Some e => Some (i, Some e)
  | None => itemFromKeyValue f k v totalPrefix
  end.

(** [func (f Index) Last(prefix []byte) (i Item, err error)] *)
Definition Last (f : Index) (prefix_ : bytes) (d : DB.store) : option (Item * option error) :=
  let i := zeroItem in
  let totalPrefix := prefix f ++ prefix_ in
  let '((k, v), err) := DB.Last d totalPrefix in
  match err with
  | Some e => Some (i, Some e)
  | None => itemFromKeyValue f k v totalPrefix
  end.

(** [func (f Index) Count() (count int, err error)] *)
Definition Count (f : Index) (d : DB.store) : Z * option error :=
  DB.CountPrefix d (prefix f).

(** [func (f Index) CountFrom(start Item) (count int, err error)] *)
Definition CountFrom (f : Index) (start : Item) (d : DB.store) : Z * option error :=
  let '(startKey, err) := encodeKeyFunc f start in
  match err with
  | Some e => (0, Some e)
  | None => DB.CountFrom d startKey
  end.

(** ** Vocabulary of the properties *)

(** The part of an item a codec commits to: the fields selected by [F],
    every other field zero. *)
Definition restrict (F : field -> bool) (i : Item) : Item :=
  mkItem (if F FAddress then Address i else None)
         (if F FData then Data i else None)
         (if F FAccessTimestamp then AccessTimestamp i else 0)
         (if F FStoreTimestamp then StoreTimestamp i else 0)
         (if F FBinID then BinID i else 0)
         (if F FPinCounter then PinCounter i else 0)
         (if F FTag then Tag i else 0).

Definition fields_union (F G : field -> bool) : field -> bool :=
  fun f => F f || G f.

(** The codec invariant of an index whose key codec commits to the fields
    [Fk] and whose value codec commits to the fields [Fv]: decoding an
    encoded key (value) recovers exactly the committed fields, the others
    staying zero, and the key encoder reads nothing but the fields it
    commits to. *)
Record codec_invariant (funcs : IndexFuncs) (Fk Fv : field -> bool) : Prop := {
  key_roundtrip : forall i k,
    EncodeKey funcs i = (k, None) -> DecodeKey funcs k = (restrict Fk i, None);
  key_fields_only : forall i,
    EncodeKey funcs (restrict Fk i) = EncodeKey funcs i;
  value_roundtrip : forall i v,
    EncodeValue funcs i = (v, None) ->
    DecodeValue funcs (restrict Fk i) v = (restrict Fv i, None)
}.

(** An entry that [Fill] can fill: its key encodes, the key is stored, and
    the stored value decodes; [r] is [decoded.Merge(original)]. *)
Definition filled (f : Index) (d : DB.store) (item r : Item) : Prop :=
  exists key val decoded,
    encodeKeyFunc f item = (key, None) /\
    DB.lookup d key = Some val /\
    decodeValueFunc f item val = (decoded, None) /\
    r = Merge decoded item.

(** An entry on which [Fill] fails with [e]: the key encoding fails with
    [e], or the key is absent and [e] is [ErrNotFound], or the value
    decoding fails with [e]. *)
Definition fill_fails (f : Index) (d : DB.store) (item : Item) (e : error) : Prop :=
  (exists key, encodeKeyFunc f item = (key, Some e)) \/
  (exists key, encodeKeyFunc f item = (key, None) /\
               DB.lookup d key = None /\ e = ErrNotFound) \/
  (exists key val decoded,
      encodeKeyFunc f item = (key, None) /\
      DB.lookup d key = Some val /\
      decodeValueFunc f item val = (decoded, Some e)).

(** A callback that, besides running [fn], records every item it is
    invoked on. *)
Definition logged {S : Type} (fn : IndexIterFunc S) : IndexIterFunc (S * list Item) :=
  fun item st =>
    let '(r, s') := fn item (fst st) in
    (r, (s', snd st ++ [item])).

(** ** Sample indexes *)

Module Sample.

(** An index keyed by address whose value is the chunk data. *)
Definition retrievalFuncs : IndexFuncs :=
  {| EncodeKey := fun fields =>
       match Address fields with
       | Some a => (a, None)
       | None => ([], Some (ErrOther "address is nil"))
       end;
     DecodeKey := fun key => (set_Address (Some key) zeroItem, None);
     EncodeValue := fun fields =>
       match Data fields with
       | Some dt => (dt, None)
       | None => ([], Some (ErrOther "data is nil"))
       end;
     DecodeValue := fun keyFields value => (set_Data (Some value) zeroItem, None) |}.

Definition keyCommits (f : field) : bool :=
  match f with FAddress => true | _ => false end.

Definition valueCommits (f : field) : bool :=
  match f with FData => true | _ => false end.

(** The same index, except that both decoders also set [Tag]: the key
    decoder to 1, the value decoder to 2; and the value decoder rejects an
    empty value. *)
Definition taggingFuncs : IndexFuncs :=
  {| EncodeKey := EncodeKey retrievalFuncs;
     DecodeKey := fun key => (set_Tag 1 (set_Address (Some key) zeroItem), None);
     EncodeValue := EncodeValue retrievalFuncs;
     DecodeValue := fun keyFields value =>
       match value with
       | [] => (zeroItem, Some (ErrOther "empty value"))
       | _ => (set_Tag 2 (set_Data (Some value) zeroItem), None)
       end |}.

Definition chunk1 : Item := mkItem (Some [0; 1]) (Some [104; 105]) 0 7 0 0 0.
Definition chunk2 : Item := mkItem (Some [0; 2]) (Some [106]) 0 8 0 0 0.
Definition chunk3 : Item := mkItem (Some [0; 3]) (Some [107]) 0 9 0 0 0.
Definition chunk9 : Item := mkItem (Some [0; 9]) None 0 0 0 0 0.
Definition nokey : Item := mkItem None (Some [1]) 0 0 0 0 0.

Definition retrieval : Index := NewIndex 1 retrievalFuncs.
Definition tagging : Index := NewIndex 1 taggingFuncs.

(** A store holding chunks 1 and 3 under prefix 1, an entry with an empty
    value, and one entry of another index (prefix 2). *)
Definition store13 : DB.store :=
  [([1; 0; 1], [104; 105]); ([1; 0; 3], [107]); ([1; 0; 9], []); ([2; 5], [42])].

(** A callback that counts its invocations and never stops. *)
Definition countItems : IndexIterFunc Z := fun _ n => ((false, None), n + 1).

End Sample.

(** ** Further vocabulary *)

(** The number a byte string denotes, most significant byte first: the
    "total value" that [incByteSlice] increments. *)
Fixpoint be_value (b : bytes) : Z :=
  match b with
  | [] => 0
  | x :: r => x * 256 ^ Z.of_nat (length r) + be_value r
  end.

(** A callback that appends every item it is given and never stops. *)
Definition collect : IndexIterFunc (list Item) :=
  fun item acc => ((false, None), acc ++ [item]).


(** What one scan entry decodes to without error. *)
Definition decodes_to (f : Index) (totalPrefix : bytes) (kv : bytes * bytes) (item : Item)
    : Prop :=
  itemFromKeyValue f (fst kv) (snd kv) totalPrefix = Some (item, None).

(** ** Package trojan: envelopes and the handler registry (handler.go) *)

Module Trojan.

(** [Envelope].  A [Topic] is a fixed-size byte array ([TopicSize]byte,
    declared in a file that is not among the sources); it is kept as its
    bytes, and its size is a parameter where it matters. *)
Record Envelope : Type := mkEnvelope {
  Topic : bytes;
  Payload : bytes
}.

(** [func (e *Envelope) Bytes() []byte] *)
Definition Bytes (e : Envelope) : bytes := Topic e ++ Payload e.

(** [Decoder]: [Decode] returns an envelope pointer and a boolean [ok];
    [None] is [ok = false]. *)
Definition Decoder : Type := bytes -> option Envelope.

(** [Handler]: [Handle([]byte)] returns nothing and acts on the state [W]
    it closes over. *)
Definition Handler (W : Type) : Type := bytes -> W -> W.

(** [Registry] *)
Record Registry (W : Type) : Type := mkRegistry {
  decoders : list Decoder;
  handlers : gmap bytes (list (Handler W))
}.
Arguments mkRegistry {W} _ _.
Arguments decoders {W} _.
Arguments handlers {W} _.

(** Indexing a Go map: a missing key gives the nil slice. *)
Definition handlersFor {W : Type} (r : Registry W) (topic : bytes) : list (Handler W) :=
  default [] (handlers r !! topic).

(** [func NewRegistry() *Registry] *)
Definition NewRegistry {W : Type} : Registry W :=
  mkRegistry [] ∅.

(** [func (r *Registry) AddDecoder(decoder Decoder)] *)
Definition AddDecoder {W : Type} (r : Registry W) (decoder : Decoder) : Registry W :=
  mkRegistry (decoders r ++ [decoder]) (handlers r).

(** [func (r *Registry) AddHandlers(topic Topic, handler ...Handler)] *)
Definition AddHandlers {W : Type} (r : Registry W) (topic : bytes)
    (handler : list (Handler W)) : Registry W :=
  mkRegistry (decoders r) (<[topic := handlersFor r topic ++ handler]> (handlers r)).

(** The inner loop of [Process]: every handler of the topic, in order. *)
Fixpoint runHandlers {W : Type} (hs : list (Handler W)) (payload : bytes) (w : W) : W :=
  match hs with
  | [] => w
  | h :: hs' => runHandlers hs' payload (h payload w)
  end.

(** The outer loop of [Process] over the decoders. *)
Fixpoint processLoop {W : Type} (r : Registry W) (ds : list Decoder) (data : bytes) (w : W)
    : W :=
  match ds with
  | [] => w
  | d :: ds' =>
      match d data with
      | Some envelope =>
          processLoop r ds' data (runHandlers (handlersFor r (Topic envelope)) (Payload envelope) w)
      | None => processLoop r ds' data w
      end
  end.

(** [func (r *Registry) Process(ch swarm.Chunk)]; [data] is [ch.Data()]. *)
Definition Process {W : Type} (r : Registry W) (data : bytes) (w : W) : W :=
  processLoop r (decoders r) data w.

(** The decoder of the package's test (handler_test.go, [fooWrapper]).
    [checksum] stands for the four little-endian bytes of the CRC-32 of its
    argument, computed by the Go standard library. *)
Definition fooEncode (checksum : bytes -> bytes) (topic payload : bytes)
    : bytes * option error :=
  let bytesToSum := topic ++ payload in
  let sumBytes := checksum bytesToSum in
  (bytesToSum ++ sumBytes, None).

Definition fooDecode (TopicSize : nat) (checksum : bytes -> bytes) (b : bytes)
    : option Envelope :=
  if (length b <? TopicSize + 4)%nat then None
  else
    let rightIndex := (length b - 4)%nat in
    let potentialSumBytes := drop rightIndex b in
    let sumBytes := checksum (take rightIndex b) in
    if negb (Equal sumBytes potentialSumBytes) then None
    else Some (mkEnvelope (take TopicSize b) (drop TopicSize (take rightIndex b))).

(** The handler of the test ([chandler]): it sends what it is given to a
    channel, here the list of what was sent. *)
Definition chandler : Handler (list bytes) := fun b sent => sent ++ [b].

End Trojan.

(** * Properties *)

(** ** Merge *)

Lemma Merge_record (a b : Item) :
  Merge a b =
  mkItem (if is_nil (Address a) then Address b else Address a)
         (if is_nil (Data a) then Data b else Data a)
         (if AccessTimestamp a =? 0 then AccessTimestamp b else AccessTimestamp a)
         (if StoreTimestamp a =? 0 then StoreTimestamp b else StoreTimestamp a)
         (if BinID a =? 0 then BinID b else BinID a)
         (if PinCounter a =? 0 then PinCounter b else PinCounter a)
         (if Tag a =? 0 then Tag b else Tag a).
Proof.
  destruct a as [a1 a2 a3 a4 a5 a6 a7], b as [b1 b2 b3 b4 b5 b6 b7].
  unfold Merge; cbn.
  destruct a1, a2; cbn;
    destruct (a3 =? 0); cbn; destruct (a4 =? 0); cbn; destruct (a5 =? 0); cbn;
    destruct (a6 =? 0); cbn; destruct (a7 =? 0); reflexivity.
Qed.

Lemma Merge_get_field (a b : Item) (f : field) :
  get_field f (Merge a b) =
  if is_zero (get_field f a) then get_field f b else get_field f a.
Proof.
  rewrite Merge_record.
  destruct f; cbn;
    match goal with |- context [if ?c then _ else _] => destruct c end; reflexivity.
Qed.

(** Two items with the same seven fields are the same item. *)
Lemma Item_ext (a b : Item) :
  (forall f, get_field f a = get_field f b) -> a = b.
Proof.
  intros H. destruct a, b.
  pose proof (H FAddress) as H1. pose proof (H FData) as H2.
  pose proof (H FAccessTimestamp) as H3. pose proof (H FStoreTimestamp) as H4.
  pose proof (H FBinID) as H5. pose proof (H FPinCounter) as H6.
  pose proof (H FTag) as H7. cbn in *. congruence.
Qed.

(** C3: for every pair of Items [a] and [b], every field of [a.Merge(b)]
    is [a]'s field when that field of [a] is non-zero (non-nil for the two
    byte-slice fields) and [b]'s field otherwise; so a non-zero field of
    [a] is returned unchanged. *)
Theorem C3_Merge_law (a b : Item) :
  (forall f : field,
      get_field f (Merge a b) =
      if is_zero (get_field f a) then get_field f b else get_field f a) /\
  Address (Merge a b) = match Address a with None => Address b | Some x => Some x end /\
  Data (Merge a b) = match Data a with None => Data b | Some x => Some x end /\
  AccessTimestamp (Merge a b) = (if AccessTimestamp a =? 0 then AccessTimestamp b else AccessTimestamp a) /\
  StoreTimestamp (Merge a b) = (if StoreTimestamp a =? 0 then StoreTimestamp b else StoreTimestamp a) /\
  BinID (Merge a b) = (if BinID a =? 0 then BinID b else BinID a) /\
  PinCounter (Merge a b) = (if PinCounter a =? 0 then PinCounter b else PinCounter a) /\
  Tag (Merge a b) = (if Tag a =? 0 then Tag b else Tag a).
Proof.
  split; [intros f; apply Merge_get_field|].
  rewrite Merge_record; cbn.
  repeat split; try reflexivity; [destruct (Address a) | destruct (Data a)]; reflexivity.
Qed.

(** ** bytes.Compare *)

Lemma Compare_refl (a : bytes) : Compare a a = Eq.
Proof. induction a as [|x a IH]; cbn; [done|]. by rewrite Z.compare_refl. Qed.

Lemma Compare_antisym (a b : bytes) : Compare b a = CompOpp (Compare a b).
Proof.
  revert b; induction a as [|x a IH]; intros [|y b]; cbn; try done.
  rewrite (Z.compare_antisym x y).
  destruct (x ?= y); cbn; auto.
Qed.

Lemma Compare_eq (a b : bytes) : Compare a b = Eq -> a = b.
Proof.
  revert b; induction a as [|x a IH]; intros [|y b]; cbn; try done.
  destruct (Z.compare_spec x y) as [->| |]; try done.
  intros Hc; f_equal; auto.
Qed.

Lemma Compare_app (p a b : bytes) : Compare (p ++ a) (p ++ b) = Compare a b.
Proof. induction p as [|x p IH]; cbn; [done|]. by rewrite Z.compare_refl. Qed.

Lemma Compare_trans_lt (a b c : bytes) :
  Compare a b = Lt -> Compare b c = Lt -> Compare a c = Lt.
Proof.
  revert b c; induction a as [|x a IH]; intros [|y b] [|z c]; cbn; try done.
  destruct (Z.compare_spec x y), (Z.compare_spec y z); try done; subst.
  - rewrite Z.compare_refl. apply IH.
  - intros _ _. destruct (Z.compare_spec y z); [lia | done | lia].
  - intros _ _. destruct (Z.compare_spec x z); [lia | done | lia].
  - intros _ _. destruct (Z.compare_spec x z); [lia | done | lia].
Qed.

Lemma Equal_true (a b : bytes) : Equal a b = true <-> a = b.
Proof.
  unfold Equal; split.
  - destruct (Compare a b) eqn:E; try done. intros _. by apply Compare_eq.
  - intros ->. by rewrite Compare_refl.
Qed.

Lemma Equal_refl (a : bytes) : Equal a a = true.
Proof. by apply Equal_true. Qed.

Lemma Equal_sym (a b : bytes) : Equal a b = Equal b a.
Proof.
  destruct (Equal a b) eqn:E1, (Equal b a) eqn:E2; try done.
  - apply Equal_true in E1. subst. by rewrite Equal_refl in E2.
  - apply Equal_true in E2. subst. by rewrite Equal_refl in E1.
Qed.

(** ** incByteSlice *)

Lemma incLoop_snoc (front : bytes) (x : Z) (suf zs : bytes) :
  incLoop (length (front ++ [x])) ((front ++ [x]) ++ suf) ((front ++ [x]) ++ zs) =
  if x =? 255
  then incLoop (length front) (front ++ x :: suf) (front ++ 0 :: zs)
  else Some (front ++ (x + 1) mod 256 :: zs).
Proof.
  rewrite length_app, Nat.add_1_r, <- !app_assoc. cbn [incLoop app length].
  rewrite list_lookup_total_middle by done.
  assert (forall v, <[length front := v]> (front ++ x :: zs) = front ++ v :: zs) as Hins.
  { intros v. rewrite insert_app_r_alt by lia. by rewrite Nat.sub_diag. }
  by rewrite !Hins.
Qed.

Lemma incLoop_all255 (front : bytes) :
  forall suf zs, Forall (fun x => x = 255) front ->
    incLoop (length front) (front ++ suf) (front ++ zs) = None.
Proof.
  induction front as [|x front IH] using rev_ind; intros suf zs H; [done|].
  apply Forall_app in H as [H1 H2]. inversion H2; subst.
  rewrite incLoop_snoc. cbn. by apply IH.
Qed.

Lemma incLoop_found (pre : bytes) (x : Z) (mid : bytes) :
  x <> 255 -> Forall (fun y => y = 255) mid ->
  forall suf zs,
    incLoop (length (pre ++ x :: mid)) ((pre ++ x :: mid) ++ suf) ((pre ++ x :: mid) ++ zs) =
    Some (pre ++ (x + 1) mod 256 :: replicate (length mid) 0 ++ zs).
Proof.
  intros Hx. induction mid as [|y mid IH] using rev_ind; intros H suf zs.
  - rewrite incLoop_snoc. by apply Z.eqb_neq in Hx as ->.
  - apply Forall_app in H as [H1 H2]. inversion H2; subst.
    replace (pre ++ x :: mid ++ [255]) with ((pre ++ x :: mid) ++ [255])
      by (by rewrite <- app_assoc).
    rewrite incLoop_snoc. cbn [Z.eqb Pos.eqb].
    rewrite IH by done.
    rewrite length_app, replicate_add, <- app_assoc. done.
Qed.

Lemma last_non255 (b : bytes) :
  Forall (fun x => x = 255) b \/
  exists pre x mid, b = pre ++ x :: mid /\ x <> 255 /\ Forall (fun y => y = 255) mid.
Proof.
  induction b as [|x b IH] using rev_ind; [by left|].
  destruct (Z.eq_dec x 255) as [->|Hx].
  - destruct IH as [IH|(pre & y & mid & -> & Hy & Hmid)].
    + left. apply Forall_app; split; [done|]. by constructor.
    + right. exists pre, y, (mid ++ [255]). rewrite <- app_assoc. split; [done|].
      split; [done|]. apply Forall_app; split; [done|]. by constructor.
  - right. exists b, x, []. by repeat split.
Qed.

Lemma incByteSlice_all255 (b : bytes) :
  Forall (fun x => x = 255) b -> incByteSlice b = None.
Proof.
  intros H. unfold incByteSlice.
  pose proof (incLoop_all255 b [] [] H) as E. by rewrite !app_nil_r in E.
Qed.

Lemma incByteSlice_found (pre : bytes) (x : Z) (mid : bytes) :
  x <> 255 -> Forall (fun y => y = 255) mid ->
  incByteSlice (pre ++ x :: mid) =
  Some (pre ++ (x + 1) mod 256 :: replicate (length mid) 0).
Proof.
  intros Hx H. unfold incByteSlice.
  pose proof (incLoop_found pre x mid Hx H [] []) as E. by rewrite !app_nil_r in E.
Qed.

Lemma zeros_least (c : bytes) :
  wf_bytes c -> Compare (replicate (length c) 0) c <> Gt.
Proof.
  induction 1 as [|y c Hy Hc IH]; cbn [length replicate Compare]; [done|].
  unfold is_byte in Hy. destruct (Z.compare_spec 0 y); try done. lia.
Qed.

Lemma all255_greatest (mid c : bytes) :
  Forall (fun y => y = 255) mid -> wf_bytes c -> length c = length mid ->
  Compare mid c <> Lt.
Proof.
  intros H; revert c; induction H as [|x mid -> Hmid IH]; intros [|y c] Hc Hl; try done.
  cbn [Compare]. inversion Hc as [|? ? Hy Hc']; subst. unfold is_byte in Hy.
  destruct (Z.compare_spec 255 y); try done; [|lia].
  apply IH; [done|]. cbn in Hl. lia.
Qed.

Lemma successor_least (pre : bytes) (x : Z) (mid : bytes) :
  is_byte x -> x <> 255 -> Forall (fun y => y = 255) mid ->
  forall c, wf_bytes c -> length c = length (pre ++ x :: mid) ->
    Compare (pre ++ x :: mid) c = Lt ->
    Compare (pre ++ (x + 1) mod 256 :: replicate (length mid) 0) c <> Gt.
Proof.
  intros Hbx Hx Hmid. unfold is_byte in Hbx.
  rewrite Z.mod_small by lia.
  induction pre as [|p pre IH]; intros [|y c] Hc Hl; try done;
    inversion Hc as [|? ? Hy Hc']; subst; cbn [length app Compare] in Hl |- *.
  - destruct (Z.compare_spec x y) as [->|Hlt|Hgt]; try done.
    + intros Hlt. exfalso. revert Hlt. apply all255_greatest; [done..|lia].
    + intros _. destruct (Z.compare_spec (x + 1) y) as [E|?|?]; try done; [|lia].
      replace (length mid) with (length c) by lia. by apply zeros_least.
  - destruct (Z.compare_spec p y); try done.
    apply IH; [done|lia].
Qed.

(** C5: on a byte slice [b] with a byte other than 0xFF, [incByteSlice]
    returns a slice of the same length that is strictly greater than [b]
    and not greater than any same-length slice strictly greater than [b];
    it returns nil exactly when every byte of [b] is 0xFF; and
    [incByteSlice(01 FF) = 02 00], [incByteSlice(FF FF) = nil],
    [incByteSlice(00) = 01]. *)
Theorem C5_incByteSlice_successor (b : bytes) :
  wf_bytes b ->
  (incByteSlice b = None <-> Forall (fun x => x = 255) b) /\
  (Exists (fun x => x <> 255) b ->
   exists next,
     incByteSlice b = Some next /\
     length next = length b /\
     wf_bytes next /\
     Compare b next = Lt /\ Compare next b = Gt /\
     forall c, wf_bytes c -> length c = length b -> Compare b c = Lt ->
               Compare next c <> Gt) /\
  incByteSlice [1; 255] = Some [2; 0] /\
  incByteSlice [255; 255] = None /\
  incByteSlice [0] = Some [1].
Proof.
  intros Hb.
  assert (forall pre x mid, b = pre ++ x :: mid -> x <> 255 ->
            Forall (fun y => y = 255) mid ->
            ~ Forall (fun x => x = 255) b) as Hno.
  { intros pre x mid -> Hx _ H. apply Forall_app in H as [_ H]. inversion H; subst. done. }
  split; [|split; [|by repeat split]].
  - split.
    + intros E. destruct (last_non255 b) as [H|(pre & x & mid & -> & Hx & Hmid)]; [done|].
      rewrite incByteSlice_found in E by done. done.
    + apply incByteSlice_all255.
  - intros Hex. destruct (last_non255 b) as [H|(pre & x & mid & -> & Hx & Hmid)].
    { exfalso. apply Exists_exists in Hex as (y & Hin & Hy).
      rewrite Forall_forall in H. by apply Hy, H. }
    assert (is_byte x) as Hbx.
    { apply Forall_app in Hb as [_ Hb]. by inversion Hb. }
    assert (Compare (pre ++ x :: mid) (pre ++ (x + 1) mod 256 :: replicate (length mid) 0) = Lt)
      as Hlt.
    { rewrite Compare_app. cbn [Compare]. unfold is_byte in Hbx. rewrite Z.mod_small by lia.
      destruct (Z.compare_spec x (x + 1)); [lia | done | lia]. }
    eexists. split; [by apply incByteSlice_found|].
    split; [rewrite !length_app; cbn; by rewrite length_replicate|].
    split.
    { apply Forall_app in Hb as [Hpre Hb]. apply Forall_app; split; [done|].
      constructor; [unfold is_byte; apply Z.mod_pos_bound; lia|].
      apply Forall_replicate. unfold is_byte; lia. }
    split; [done|].
    split; [by rewrite Compare_antisym, Hlt|].
    by apply successor_least.
Qed.

Lemma C5_incByteSlice_successor_witness :
  wf_bytes [7; 254; 255; 255] /\
  exists next,
    incByteSlice [7; 254; 255; 255] = Some next /\
    length next = length [7; 254; 255; 255] /\
    wf_bytes next /\
    Compare [7; 254; 255; 255] next = Lt /\ Compare next [7; 254; 255; 255] = Gt /\
    forall c, wf_bytes c -> length c = length [7; 254; 255; 255] ->
              Compare [7; 254; 255; 255] c = Lt -> Compare next c <> Gt.
Proof.
  assert (wf_bytes [7; 254; 255; 255]) as H
    by (repeat constructor; unfold is_byte; lia).
  split; [exact H|].
  apply (C5_incByteSlice_successor [7; 254; 255; 255] H).
  apply Exists_cons_hd. lia.
Defined.

(** ** The store *)

Lemma Equal_false_of_Compare (a b : bytes) : Compare a b <> Eq -> Equal a b = false.
Proof. unfold Equal. by destruct (Compare a b). Qed.

Lemma lookup_insert_same (d : DB.store) (key value : bytes) :
  DB.lookup (DB.insert key value d) key = Some value.
Proof.
  induction d as [|[k v] d IH]; cbn.
  - by rewrite Equal_refl.
  - destruct (Compare key k) eqn:E; cbn.
    + by rewrite Equal_refl.
    + by rewrite Equal_refl.
    + rewrite Equal_false_of_Compare; [done|].
      rewrite Compare_antisym, E. done.
Qed.

Lemma lookup_insert_other (d : DB.store) (key key' value : bytes) :
  key <> key' ->
  DB.lookup (DB.insert key value d) key' = DB.lookup d key'.
Proof.
  intros Hne. assert (Equal key key' = false) as Hf.
  { destruct (Equal key key') eqn:E; [|done]. by apply Equal_true in E. }
  induction d as [|[k v] d IH]; cbn.
  - by rewrite Hf.
  - destruct (Compare key k) eqn:E; cbn.
    + apply Compare_eq in E as <-. by rewrite !Hf.
    + by rewrite Hf.
    + by rewrite IH.
Qed.

Lemma ascending_tail (kv : bytes * bytes) (d : DB.store) :
  DB.ascending (kv :: d) -> DB.ascending d.
Proof. destruct kv. cbn. tauto. Qed.

Lemma ascending_above (k v : bytes) (d : DB.store) (key : bytes) :
  DB.ascending ((k, v) :: d) -> Compare key k <> Gt -> DB.lookup d key = None.
Proof.
  revert k v; induction d as [|[k' v'] d IH]; intros k v [Hk Hd] Hkey; [done|].
  assert (Compare key k' = Lt) as Hlt.
  { destruct (Compare key k) eqn:E; [|by eapply Compare_trans_lt|done].
    by apply Compare_eq in E as ->. }
  cbn [DB.lookup]. rewrite Equal_false_of_Compare.
  - apply (IH k' v' Hd). by rewrite Hlt.
  - rewrite Compare_antisym, Hlt. done.
Qed.

Lemma insert_ascending (d : DB.store) (key value : bytes) :
  DB.ascending d -> DB.ascending (DB.insert key value d).
Proof.
  induction d as [|[k v] d IH]; [done|].
  intros Hd. cbn [DB.insert].
  destruct (Compare key k) eqn:E.
  - apply Compare_eq in E as ->. exact Hd.
  - split; [exact E | exact Hd].
  - destruct Hd as [Hk Hd]. specialize (IH Hd).
    split; [|exact IH].
    destruct d as [|[k' v'] d']; cbn [DB.insert].
    + by rewrite Compare_antisym, E.
    + destruct (Compare key k'); [| |done]; by rewrite Compare_antisym, E.
Qed.

Lemma remove_ascending (d : DB.store) (key : bytes) :
  DB.ascending d -> DB.ascending (DB.remove key d).
Proof.
  induction d as [|[k v] d IH]; [done|].
  intros Hd. cbn [DB.remove].
  destruct (Equal k key); [by eapply ascending_tail|].
  destruct Hd as [Hk Hd]. specialize (IH Hd). split; [|exact IH].
  destruct d as [|[k' v'] d']; [done|]. cbn [DB.remove].
  destruct (Equal k' key); [|exact Hk].
  destruct d' as [|[k'' v''] d'']; [done|].
  destruct Hd as [Hk' _]. by eapply Compare_trans_lt.
Qed.

(** The writes of the facade keep the keys ascending, so every store
    reached from the empty one is ascending. *)
Lemma Put_Delete_ascending (d : DB.store) (key value : bytes) :
  DB.ascending d ->
  DB.ascending (fst (DB.Put d key value)) /\ DB.ascending (fst (DB.Delete d key)).
Proof.
  intros Hd. split; [by apply insert_ascending | by apply remove_ascending].
Qed.

(** On an ascending store, seeking a key lands on it exactly when the key
    is stored. *)
Lemma seek_hits_iff_stored (d : DB.store) (key : bytes) :
  DB.ascending d ->
  match Txn.Seek (Txn.GetBatch d) key with
  | Some (k, _) => Equal key k
  | None => false
  end =
  match DB.lookup d key with Some _ => true | None => false end.
Proof.
  unfold Txn.Seek, Txn.GetBatch.
  induction d as [|[k v] d IH]; intros Hd; [done|].
  cbn [DB.seek DB.lookup].
  destruct (Compare k key) eqn:E.
  - cbn. apply Compare_eq in E as ->. by rewrite Equal_refl.
  - rewrite (Equal_false_of_Compare k key) by (by rewrite E).
    apply IH. by eapply ascending_tail.
  - cbn. rewrite (Equal_false_of_Compare k key) by (by rewrite E).
    rewrite (Equal_false_of_Compare key k) by (by rewrite Compare_antisym, E).
    rewrite (ascending_above k v d key Hd); [done|].
    by rewrite Compare_antisym, E.
Qed.

(** ** The field view of [restrict] *)

Lemma restrict_get_field (F : field -> bool) (i : Item) (f : field) :
  get_field f (restrict F i) =
  if F f then get_field f i else get_field f zeroItem.
Proof. destruct f; cbn; by destruct (F _). Qed.

Lemma is_zero_zeroItem (f : field) : is_zero (get_field f zeroItem) = true.
Proof. by destruct f. Qed.

Lemma Merge_restrict (Fk Fv : field -> bool) (i : Item) :
  Merge (restrict Fv i) (restrict Fk i) = restrict (fields_union Fk Fv) i.
Proof.
  apply Item_ext; intros f.
  rewrite Merge_get_field, !restrict_get_field. unfold fields_union.
  destruct (Fv f), (Fk f); cbn [orb]; rewrite ?is_zero_zeroItem; try done.
  - by destruct (is_zero (get_field f i)).
  - destruct (is_zero (get_field f i)) eqn:E; [|done].
    destruct f; cbn in E |- *.
    + by destruct (Address i).
    + by destruct (Data i).
    + by apply Z.eqb_eq in E as ->.
    + by apply Z.eqb_eq in E as ->.
    + by apply Z.eqb_eq in E as ->.
    + by apply Z.eqb_eq in E as ->.
    + by apply Z.eqb_eq in E as ->.
Qed.

(** ** Put then Get *)

(** C1: for an index whose codecs satisfy the codec invariant, committing
    to the key fields [Fk] and the value fields [Fv], and an item [i] that
    both encoders accept, [Put(i)] succeeds and a following [Get] with the
    key fields of [i] returns, without error, the item that equals [i] on
    every field of [Fk] or [Fv] (and is zero elsewhere). *)
Theorem C1_Put_then_Get (id : Z) (funcs : IndexFuncs) (Fk Fv : field -> bool)
    (i : Item) (d : DB.store) (k v : bytes) :
  codec_invariant funcs Fk Fv ->
  EncodeKey funcs i = (k, None) ->
  EncodeValue funcs i = (v, None) ->
  exists d' out,
    Put (NewIndex id funcs) i d = (d', None) /\
    Get (NewIndex id funcs) (restrict Fk i) d' = (out, None) /\
    out = restrict (fields_union Fk Fv) i /\
    forall f, fields_union Fk Fv f = true -> get_field f out = get_field f i.
Proof.
  intros [Hkr Hko Hvr] Hk Hv.
  exists (DB.insert (id :: k) v d), (restrict (fields_union Fk Fv) i).
  split; [|split; [|split]].
  - unfold Put, NewIndex; cbn. rewrite Hk, Hv. reflexivity.
  - unfold Get, NewIndex; cbn. rewrite Hko, Hk. cbn.
    unfold DB.Get. rewrite lookup_insert_same.
    rewrite (Hvr i v Hv). by rewrite Merge_restrict.
  - reflexivity.
  - intros f Hf. rewrite restrict_get_field. by rewrite Hf.
Qed.

Lemma retrieval_codec_invariant :
  codec_invariant Sample.retrievalFuncs Sample.keyCommits Sample.valueCommits.
Proof.
  split.
  - intros i k. cbn. destruct i as [[a|] ? ? ? ? ? ?]; cbn; [|done].
    intros [= ->]. reflexivity.
  - intros i. reflexivity.
  - intros i v. cbn. destruct i as [? [dt|] ? ? ? ? ?]; cbn; [|done].
    intros [= ->]. reflexivity.
Qed.

Lemma C1_Put_then_Get_witness :
  exists d' out,
    Put (NewIndex 1 Sample.retrievalFuncs) Sample.chunk1 [] = (d', None) /\
    Get (NewIndex 1 Sample.retrievalFuncs)
        (restrict Sample.keyCommits Sample.chunk1) d' = (out, None) /\
    out = restrict (fields_union Sample.keyCommits Sample.valueCommits) Sample.chunk1 /\
    forall f, fields_union Sample.keyCommits Sample.valueCommits f = true ->
              get_field f out = get_field f Sample.chunk1.
Proof.
  apply (C1_Put_then_Get 1 Sample.retrievalFuncs Sample.keyCommits Sample.valueCommits
           Sample.chunk1 [] [0; 1] [104; 105]).
  - exact retrieval_codec_invariant.
  - reflexivity.
  - reflexivity.
Defined.

(** ** Get *)

(** C4: when the key fields encode to a key that is stored with a value
    the value decoder accepts, [Get] returns [decoded.Merge(keyFields)]
    with a nil error, so each field the decoder leaves zero comes from the
    caller's key fields; in every other case [Get] returns a non-nil
    error, which is the key encoder's error, [ErrNotFound] for an absent
    key, or the value decoder's error. *)
Theorem C4_Get_result (f : Index) (keyFields : Item) (d : DB.store) :
  (forall key value decoded,
      encodeKeyFunc f keyFields = (key, None) ->
      DB.lookup d key = Some value ->
      decodeValueFunc f keyFields value = (decoded, None) ->
      Get f keyFields d = (Merge decoded keyFields, None) /\
      forall fld,
        get_field fld (Merge decoded keyFields) =
        if is_zero (get_field fld decoded)
        then get_field fld keyFields else get_field fld decoded) /\
  (forall key e,
      encodeKeyFunc f keyFields = (key, Some e) ->
      Get f keyFields d = (zeroItem, Some e)) /\
  (forall key,
      encodeKeyFunc f keyFields = (key, None) ->
      DB.lookup d key = None ->
      Get f keyFields d = (zeroItem, Some ErrNotFound)) /\
  (forall key value decoded e,
      encodeKeyFunc f keyFields = (key, None) ->
      DB.lookup d key = Some value ->
      decodeValueFunc f keyFields value = (decoded, Some e) ->
      Get f keyFields d = (decoded, Some e)) /\
  (forall out e,
      Get f keyFields d = (out, Some e) ->
      snd (encodeKeyFunc f keyFields) = Some e \/
      (e = ErrNotFound /\ DB.lookup d (fst (encodeKeyFunc f keyFields)) = None) \/
      (exists value,
          DB.lookup d (fst (encodeKeyFunc f keyFields)) = Some value /\
          snd (decodeValueFunc f keyFields value) = Some e)).
Proof.
  unfold Get, DB.Get.
  split; [|split; [|split; [|split]]].
  - intros key value decoded -> -> ->. split; [done|].
    intros fld. apply Merge_get_field.
  - by intros key e ->.
  - by intros key -> ->.
  - by intros key value decoded e -> -> ->.
  - intros out e.
    destruct (encodeKeyFunc f keyFields) as [key [e1|]]; cbn [fst snd].
    { intros [= _ ->]. by left. }
    destruct (DB.lookup d key) as [value|].
    2:{ intros [= _ <-]. right; left. done. }
    destruct (decodeValueFunc f keyFields value) as [decoded [e2|]] eqn:E; [|done].
    intros [= _ ->]. right; right. exists value. by rewrite E.
Qed.

Lemma C4_Get_result_witness :
  Get Sample.retrieval (restrict Sample.keyCommits Sample.chunk1) Sample.store13 =
    (Merge (set_Data (Some [104; 105]) zeroItem) (restrict Sample.keyCommits Sample.chunk1),
     None).
Proof.
  destruct (C4_Get_result Sample.retrieval (restrict Sample.keyCommits Sample.chunk1)
              Sample.store13) as [Hok _].
  apply (Hok [1; 0; 1] [104; 105] (set_Data (Some [104; 105]) zeroItem));
    reflexivity.
Defined.

(** ** The prefix byte *)

(** C2: in an index built by [NewIndex] with prefix byte [id], for an item
    [e] whose key the codec encodes to [k], every operation that takes an
    item hands the database the key [id :: k]; the operations that take a
    byte prefix hand it [id] followed by that prefix; and the user key
    decoder receives a stored key without its first byte. *)
Theorem C2_prefix_byte (id : Z) (funcs : IndexFuncs) (e : Item) (k : bytes) :
  EncodeKey funcs e = (k, None) ->
  let f := NewIndex id funcs in
  prefix f = [id] /\
  encodeKeyFunc f e = (id :: k, None) /\
  (forall d, Get f e d =
     match DB.Get d (id :: k) with
     | (_, Some err) => (zeroItem, Some err)
     | (value, None) =>
         match DecodeValue funcs e value with
         | (out, Some err) => (out, Some err)
         | (out, None) => (Merge out e, None)
         end
     end) /\
  (forall d, Has f e d = DB.Has d (id :: k)) /\
  (forall d, HasMulti f [e] d =
     ([match Txn.Seek (Txn.GetBatch d) (id :: k) with
       | Some (k', _) => Equal (id :: k) k'
       | None => false
       end], None)) /\
  (forall d, Fill f [e] d =
     match Txn.Get (Txn.GetBatch d) (id :: k) with
     | (_, Some err) => ([e], Some (if error_eqb err ErrKeyNotFound then ErrNotFound else err))
     | (val, None) =>
         match DecodeValue funcs e val with
         | (_, Some err) => ([e], Some err)
         | (decoded, None) => ([Merge decoded e], None)
         end
     end) /\
  (forall d, Put f e d =
     match EncodeValue funcs e with
     | (_, Some err) => (d, Some err)
     | (value, None) => DB.Put d (id :: k) value
     end) /\
  (forall b, PutInBatch f b e =
     match EncodeValue funcs e with
     | (_, Some err) => (b, Some err)
     | (value, None) => Txn.Set_ b (id :: k) value
     end) /\
  (forall d, Delete f e d = DB.Delete d (id :: k)) /\
  (forall b, DeleteInBatch f b e = Txn.Delete b (id :: k)) /\
  (forall d, CountFrom f e d = DB.CountFrom d (id :: k)) /\
  (forall d, Count f d = DB.CountPrefix d [id]) /\
  (forall (S : Type) (fn : IndexIterFunc S) skip p d s,
     Iterate f fn (Some (mkIterateOptions (Some e) skip p)) d s =
     DB.Iterate d (id :: k) skip (iterateCallback f fn (id :: p)) s) /\
  (forall (S : Type) (fn : IndexIterFunc S) skip p d s,
     Iterate f fn (Some (mkIterateOptions None skip p)) d s =
     DB.Iterate d (id :: p) skip (iterateCallback f fn (id :: p)) s) /\
  (forall p d, First f p d =
     match DB.First d (id :: p) with
     | (_, Some err) => Some (zeroItem, Some err)
     | ((key, value), None) => itemFromKeyValue f key value (id :: p)
     end) /\
  (forall p d, Last f p d =
     match DB.Last d (id :: p) with
     | (_, Some err) => Some (zeroItem, Some err)
     | ((key, value), None) => itemFromKeyValue f key value (id :: p)
     end) /\
  (forall b key1, decodeKeyFunc f (b :: key1) = Some (DecodeKey funcs key1)) /\
  (forall b key1 value totalPrefix,
     HasPrefix (b :: key1) totalPrefix = true ->
     itemFromKeyValue f (b :: key1) value totalPrefix =
     match DecodeKey funcs key1 with
     | (_, Some err) => Some (zeroItem, Some err)
     | (keyItem, None) =>
         match DecodeValue funcs keyItem value with
         | (_, Some err) => Some (zeroItem, Some err)
         | (valueItem, None) => Some (Merge keyItem valueItem, None)
         end
     end).
Proof.
  intros Hk f.
  assert (encodeKeyFunc f e = (id :: k, None)) as Hek
    by (unfold f, NewIndex; cbn; by rewrite Hk).
  repeat match goal with |- _ /\ _ => split end.
  - done.
  - done.
  - intros d. unfold Get. rewrite Hek.
    destruct (DB.Get d (id :: k)) as [value [err|]]; [done|].
    change (decodeValueFunc f) with (DecodeValue funcs).
    by destruct (DecodeValue funcs e value) as [out [err|]].
  - intros d. unfold Has. by rewrite Hek.
  - intros d. unfold HasMulti. cbn [length replicate hasMultiLoop]. rewrite Hek.
    destruct (Txn.Seek (Txn.GetBatch d) (id :: k)) as [[k' v']|]; [|done].
    by destruct (Equal (id :: k) k').
  - intros d. unfold Fill. cbn [length fillLoop].
    change ([e] !! 0%nat) with (Some e). cbn iota. rewrite Hek.
    destruct (Txn.Get (Txn.GetBatch d) (id :: k)) as [val [err|]].
    + by destruct (error_eqb err ErrKeyNotFound).
    + change (decodeValueFunc f) with (DecodeValue funcs).
      by destruct (DecodeValue funcs e val) as [decoded [err|]].
  - intros d. unfold Put. rewrite Hek.
    change (encodeValueFunc f) with (EncodeValue funcs).
    by destruct (EncodeValue funcs e) as [value [err|]].
  - intros b. unfold PutInBatch. rewrite Hek.
    change (encodeValueFunc f) with (EncodeValue funcs).
    by destruct (EncodeValue funcs e) as [value [err|]].
  - intros d. unfold Delete. by rewrite Hek.
  - intros b. unfold DeleteInBatch. by rewrite Hek.
  - intros d. unfold CountFrom. by rewrite Hek.
  - done.
  - intros S fn skip p d s. unfold Iterate. cbn [StartFrom]. by rewrite Hek.
  - done.
  - intros p d. unfold First. change (prefix f) with [id]. cbn [app].
    by destruct (DB.First d (id :: p)) as [[key value] [err|]].
  - intros p d. unfold Last. change (prefix f) with [id]. cbn [app].
    by destruct (DB.Last d (id :: p)) as [[key value] [err|]].
  - done.
  - intros b key1 value totalPrefix Hp. unfold itemFromKeyValue. rewrite Hp.
    cbn [negb app]. change (decodeKeyFunc f (b :: key1)) with (Some (DecodeKey funcs key1)).
    change (decodeValueFunc f) with (DecodeValue funcs).
    destruct (DecodeKey funcs key1) as [keyItem [err|]]; [done|].
    by destruct (DecodeValue funcs keyItem value) as [valueItem [err|]].
Qed.

Lemma C2_prefix_byte_witness :
  encodeKeyFunc (NewIndex 1 Sample.retrievalFuncs) Sample.chunk1 = ([1; 0; 1], None).
Proof.
  apply (C2_prefix_byte 1 Sample.retrievalFuncs Sample.chunk1 [0; 1]).
  reflexivity.
Defined.

(** ** Merge order in Get and in the iterating operations *)

(** C9: [itemFromKeyValue], through which [Iterate], [First] and [Last]
    build their items, returns [keyItem.Merge(valueItem)]: a field the key
    decoder sets to a non-zero value keeps the key decoder's value.  [Get]
    returns [decoded.Merge(keyFields)]: a field the value decoder sets to a
    non-zero value keeps the value decoder's value. *)
Theorem C9_merge_precedence (f : Index) :
  (forall key value totalPrefix keyItem valueItem,
      HasPrefix key totalPrefix = true ->
      decodeKeyFunc f key = Some (keyItem, None) ->
      decodeValueFunc f keyItem value = (valueItem, None) ->
      itemFromKeyValue f key value totalPrefix = Some (Merge keyItem valueItem, None) /\
      (forall (S : Type) (fn : IndexIterFunc S) s,
          iterateCallback f fn totalPrefix key value s =
          Some (fn (Merge keyItem valueItem) s)) /\
      forall fld, is_zero (get_field fld keyItem) = false ->
                  get_field fld (Merge keyItem valueItem) = get_field fld keyItem) /\
  (forall p d key value,
      DB.First d (prefix f ++ p) = ((key, value), None) ->
      First f p d = itemFromKeyValue f key value (prefix f ++ p)) /\
  (forall p d key value,
      DB.Last d (prefix f ++ p) = ((key, value), None) ->
      Last f p d = itemFromKeyValue f key value (prefix f ++ p)) /\
  (forall keyFields d key value decoded,
      encodeKeyFunc f keyFields = (key, None) ->
      DB.Get d key = (value, None) ->
      decodeValueFunc f keyFields value = (decoded, None) ->
      Get f keyFields d = (Merge decoded keyFields, None) /\
      forall fld, is_zero (get_field fld decoded) = false ->
                  get_field fld (Merge decoded keyFields) = get_field fld decoded).
Proof.
  split; [|split; [|split]].
  - intros key value totalPrefix keyItem valueItem Hp Hk Hv.
    assert (itemFromKeyValue f key value totalPrefix = Some (Merge keyItem valueItem, None))
      as Hi.
    { unfold itemFromKeyValue. rewrite Hp. cbn [negb app]. by rewrite Hk, Hv. }
    split; [exact Hi|]. split.
    + intros S fn s. unfold iterateCallback. by rewrite Hi.
    + intros fld Hz. by rewrite Merge_get_field, Hz.
  - intros p d key value H. unfold First. by rewrite H.
  - intros p d key value H. unfold Last. by rewrite H.
  - intros keyFields d key value decoded Hk Hg Hv. split.
    + unfold Get. by rewrite Hk, Hg, Hv.
    + intros fld Hz. by rewrite Merge_get_field, Hz.
Qed.

Lemma C9_merge_precedence_witness :
  First Sample.tagging [] Sample.store13 =
    Some (mkItem (Some [0; 1]) (Some [104; 105]) 0 0 0 0 1, None) /\
  Get Sample.tagging (mkItem (Some [0; 1]) None 0 0 0 0 1) Sample.store13 =
    (mkItem (Some [0; 1]) (Some [104; 105]) 0 0 0 0 2, None).
Proof.
  destruct (C9_merge_precedence Sample.tagging) as (Hitem & Hfirst & _ & Hget).
  split.
  - rewrite (Hfirst [] Sample.store13 [1; 0; 1] [104; 105] eq_refl).
    apply (Hitem [1; 0; 1] [104; 105] [1]
             (mkItem (Some [0; 1]) None 0 0 0 0 1)
             (mkItem None (Some [104; 105]) 0 0 0 0 2)); reflexivity.
  - apply (Hget (mkItem (Some [0; 1]) None 0 0 0 0 1) Sample.store13
             [1; 0; 1] [104; 105] (mkItem None (Some [104; 105]) 0 0 0 0 2));
      reflexivity.
Defined.

(** ** The key decoder never slices an empty key *)

Lemma HasPrefix_cons_nonempty (key : bytes) (id : Z) (p : bytes) :
  HasPrefix key (id :: p) = true -> exists b key1, key = b :: key1.
Proof. destruct key as [|b key1]; [done|]. intros _. by exists b, key1. Qed.

Lemma itemFromKeyValue_returns (id : Z) (funcs : IndexFuncs) (key value p : bytes) :
  exists r, itemFromKeyValue (NewIndex id funcs) key value (id :: p) = Some r.
Proof.
  unfold itemFromKeyValue.
  destruct (HasPrefix key (id :: p)) eqn:Hp; cbn [negb]; [|by eexists].
  apply HasPrefix_cons_nonempty in Hp as (b & key1 & ->).
  cbn [app NewIndex decodeKeyFunc decodeValueFunc].
  destruct (DecodeKey funcs key1) as [keyItem [e|]]; [by eexists|].
  destruct (DecodeValue funcs keyItem value) as [valueItem [e|]]; by eexists.
Qed.

Lemma iterLoop_returns {S : Type} (startKey : bytes) (skip : bool)
    (fn : bytes -> bytes -> S -> option ((bool * option error) * S)) (kvs : DB.store) :
  (forall k v s, exists r, fn k v s = Some r) ->
  forall s, exists r, DB.iterLoop startKey skip fn kvs s = Some r.
Proof.
  intros Hfn. induction kvs as [|[k v] kvs IH]; intros s; cbn [DB.iterLoop]; [by eexists|].
  destruct (skip && Equal k startKey); [apply IH|].
  destruct (Hfn k v s) as [[[[|] [e|]] s'] ->]; try (by eexists). apply IH.
Qed.

(** C10: in an index built by [NewIndex] the key decoder is called only on
    non-empty keys: [itemFromKeyValue] calls it after the key has passed
    the has-prefix check against a total prefix that starts with the index
    prefix byte, so the slice [key[1:]] is in range and neither
    [itemFromKeyValue] nor [First], [Last] or [Iterate] panics; slicing
    the empty key would. *)
Theorem C10_key_decoder_in_range (id : Z) (funcs : IndexFuncs) :
  let f := NewIndex id funcs in
  (forall p, (1 <= length (prefix f ++ p))%nat) /\
  (forall key p,
      HasPrefix key (prefix f ++ p) = true ->
      (1 <= length key)%nat /\
      decodeKeyFunc f key = Some (DecodeKey funcs (drop 1 key))) /\
  decodeKeyFunc f [] = None /\
  (forall value p,
      itemFromKeyValue f [] value (prefix f ++ p) = Some (zeroItem, Some ErrKeyNotFound)) /\
  (forall key value p, exists r, itemFromKeyValue f key value (prefix f ++ p) = Some r) /\
  (forall p d, exists r, First f p d = Some r) /\
  (forall p d, exists r, Last f p d = Some r) /\
  (forall (S : Type) (fn : IndexIterFunc S) options d s,
      exists r, Iterate f fn options d s = Some r).
Proof.
  intros f. change (prefix f) with [id].
  repeat match goal with |- _ /\ _ => split end.
  - intros p. cbn. lia.
  - intros key p Hp. apply HasPrefix_cons_nonempty in Hp as (b & key1 & ->).
    split; [cbn; lia | done].
  - done.
  - done.
  - intros key value p. apply itemFromKeyValue_returns.
  - intros p d. unfold First. change (prefix f) with [id]. cbn [app].
    destruct (DB.First d (id :: p)) as [[k v] [e|]]; [by eexists|].
    apply itemFromKeyValue_returns.
  - intros p d. unfold Last. change (prefix f) with [id]. cbn [app].
    destruct (DB.Last d (id :: p)) as [[k v] [e|]]; [by eexists|].
    apply itemFromKeyValue_returns.
  - intros S fn options d s. unfold Iterate.
    set (o := match options with Some o => o | None => _ end).
    change (prefix f) with [id]. cbn [app].
    match goal with
    | |- context [let '(_, _) := ?x in _] => destruct x as [startKey [e|]]
    end; [by eexists|].
    unfold DB.Iterate. apply iterLoop_returns.
    intros k v s'. unfold iterateCallback, f.
    destruct (itemFromKeyValue_returns id funcs k v (Prefix o)) as [[item [e|]] ->].
    + destruct (error_eqb e ErrKeyNotFound); by eexists.
    + by eexists.
Qed.

Lemma C10_key_decoder_in_range_witness :
  (1 <= length [1; 0; 1])%nat /\
  decodeKeyFunc Sample.retrieval [1; 0; 1] =
    Some (DecodeKey Sample.retrievalFuncs (drop 1 [1; 0; 1])).
Proof.
  destruct (C10_key_decoder_in_range 1 Sample.retrievalFuncs) as (_ & Hkey & _).
  apply (Hkey [1; 0; 1] [0]). reflexivity.
Defined.

(** ** Iterate leaves the scan at the first key outside the prefix *)

Lemma iterateCallback_outside {S : Type} (f : Index) (fn : IndexIterFunc S)
    (scanPrefix key value : bytes) (s : S) :
  HasPrefix key scanPrefix = false ->
  iterateCallback f fn scanPrefix key value s = Some ((true, None), s).
Proof.
  intros Hp. unfold iterateCallback, itemFromKeyValue. by rewrite Hp.
Qed.

Lemma iterLoop_cut {S : Type} (startKey : bytes) (skip : bool)
    (cb : bytes -> bytes -> S -> option ((bool * option error) * S))
    (pre : DB.store) (k v : bytes) (post : DB.store) :
  skip && Equal k startKey = false ->
  (forall s, cb k v s = Some ((true, None), s)) ->
  forall s,
    DB.iterLoop startKey skip cb (pre ++ (k, v) :: post) s =
    DB.iterLoop startKey skip cb pre s.
Proof.
  intros Hskip Hcb.
  induction pre as [|[k0 v0] pre IH]; intros s; cbn [app DB.iterLoop].
  - by rewrite Hskip, Hcb.
  - destruct (skip && Equal k0 startKey); [apply IH|].
    destruct (cb k0 v0 s) as [[[[|] [e|]] s']|]; first [done | apply IH].
Qed.

(** C6: when the scan of [Iterate] yields a pair whose key does not start
    with the scan prefix (the index prefix followed by the options' common
    prefix), the closure handed to the database reports a clean stop
    without running the user callback, the walk ends there with a nil
    error, and the whole iteration gives the result, the callback state
    and the log of callback invocations of the walk over the pairs before
    that one. *)
Theorem C6_Iterate_stops_outside_prefix {S : Type} (f : Index) (fn : IndexIterFunc S)
    (options : option IterateOptions) (d : DB.store) (startKey : bytes)
    (pre post : DB.store) (k v : bytes) :
  let o := match options with
           | None => mkIterateOptions None false []
           | Some o => o
           end in
  let scanPrefix := prefix f ++ Prefix o in
  match StartFrom o with
  | Some start => encodeKeyFunc f start
  | None => (scanPrefix, None)
  end = (startKey, None) ->
  DB.seek d startKey = pre ++ (k, v) :: post ->
  SkipStartFromItem o && Equal k startKey = false ->
  HasPrefix k scanPrefix = false ->
  (forall s, iterateCallback f fn scanPrefix k v s = Some ((true, None), s)) /\
  (forall s,
      DB.iterLoop startKey (SkipStartFromItem o) (iterateCallback f fn scanPrefix)
        ((k, v) :: post) s = Some (None, s)) /\
  (forall s,
      Iterate f fn options d s =
      DB.iterLoop startKey (SkipStartFromItem o) (iterateCallback f fn scanPrefix) pre s) /\
  (forall s log,
      DB.iterLoop startKey (SkipStartFromItem o) (iterateCallback f (logged fn) scanPrefix)
        ((k, v) :: post) (s, log) = Some (None, (s, log))) /\
  (forall s log,
      Iterate f (logged fn) options d (s, log) =
      DB.iterLoop startKey (SkipStartFromItem o) (iterateCallback f (logged fn) scanPrefix)
        pre (s, log)).
Proof.
  intros o scanPrefix Hstart Hscan Hskip Hp.
  assert (forall (T : Type) (g : IndexIterFunc T) s,
             Iterate f g options d s =
             DB.iterLoop startKey (SkipStartFromItem o) (iterateCallback f g scanPrefix) pre s)
    as Hwhole.
  { intros T g s. unfold Iterate. fold o. fold scanPrefix. rewrite Hstart.
    unfold DB.Iterate. rewrite Hscan.
    apply iterLoop_cut; [done|]. intros s'. by apply iterateCallback_outside. }
  assert (forall (T : Type) (g : IndexIterFunc T) s,
             DB.iterLoop startKey (SkipStartFromItem o) (iterateCallback f g scanPrefix)
               ((k, v) :: post) s = Some (None, s)) as Hhere.
  { intros T g s. cbn [DB.iterLoop]. rewrite Hskip.
    by rewrite iterateCallback_outside. }
  split; [intros s; by apply iterateCallback_outside|].
  split; [apply Hhere|].
  split; [apply Hwhole|].
  split; [intros s log; apply Hhere | intros s log; apply Hwhole].
Qed.

Lemma C6_Iterate_stops_outside_prefix_witness :
  Iterate Sample.retrieval (logged Sample.countItems) None Sample.store13 (0, []) =
  DB.iterLoop [1] false
    (iterateCallback Sample.retrieval (logged Sample.countItems) [1])
    [([1; 0; 1], [104; 105]); ([1; 0; 3], [107]); ([1; 0; 9], [])] (0, []).
Proof.
  apply (C6_Iterate_stops_outside_prefix Sample.retrieval Sample.countItems None
           Sample.store13 [1]
           [([1; 0; 1], [104; 105]); ([1; 0; 3], [107]); ([1; 0; 9], [])] []
           [2; 5] [42]); reflexivity.
Defined.

(** ** HasMulti against Has *)

Lemma hasMultiLoop_spec (f : Index) (d : DB.store) :
  DB.ascending d ->
  forall items front,
    Forall (fun it => snd (encodeKeyFunc f it) = None) items ->
    hasMultiLoop f (Txn.GetBatch d) items (length front)
      (front ++ replicate (length items) false) =
    (front ++ map (fun it => fst (Has f it d)) items, None).
Proof.
  intros Hd. induction items as [|it items IH]; intros front Hok.
  - cbn. done.
  - inversion Hok as [|? ? Hit Hrest]; subst.
    cbn [hasMultiLoop length replicate map]. unfold Has at 1.
    destruct (encodeKeyFunc f it) as [key err]. cbn [snd] in Hit. subst err.
    pose proof (seek_hits_iff_stored d key Hd) as Hseek.
    assert (forall b, <[length front := b]> (front ++ false :: replicate (length items) false)
                      = (front ++ [b]) ++ replicate (length items) false) as Hins.
    { intros b. rewrite insert_app_r_alt by lia. rewrite Nat.sub_diag.
      by rewrite <- app_assoc. }
    assert (forall b, front ++ b :: map (fun it => fst (Has f it d)) items =
                      (front ++ [b]) ++ map (fun it => fst (Has f it d)) items) as Hout
      by (intros b; by rewrite <- app_assoc).
    assert (forall b, S (length front) = length (front ++ [b])) as Hlen
      by (intros b; rewrite length_app; cbn; lia).
    unfold DB.Has. cbn [fst].
    destruct (Txn.Seek (Txn.GetBatch d) key) as [[k v]|].
    + destruct (Equal key k).
      * rewrite <- Hseek, Hins, Hout, (Hlen true). by apply IH.
      * rewrite <- Hseek, Hout, (Hlen false).
        replace (front ++ false :: replicate (length items) false)
          with ((front ++ [false]) ++ replicate (length items) false)
          by (by rewrite <- app_assoc).
        by apply IH.
    + rewrite <- Hseek, Hins, Hout, (Hlen false). by apply IH.
Qed.

(** C7: on a store with ascending keys, for items whose keys all encode,
    [HasMulti] returns without error one boolean per item, in the order of
    the items, the i-th being what [Has] returns for the i-th item on the
    same store; so on [absent, present, absent] it returns
    [false, true, false]. *)
Theorem C7_HasMulti_matches_Has (f : Index) (items : list Item) (d : DB.store) :
  DB.ascending d ->
  Forall (fun it => snd (encodeKeyFunc f it) = None) items ->
  HasMulti f items d = (map (fun it => fst (Has f it d)) items, None) /\
  length (fst (HasMulti f items d)) = length items /\
  (forall i it, items !! i = Some it ->
                fst (HasMulti f items d) !! i = Some (fst (Has f it d)) /\
                snd (Has f it d) = None) /\
  (forall a p, items = [a; p; a] ->
               Has f a d = (false, None) -> Has f p d = (true, None) ->
               HasMulti f items d = ([false; true; false], None)).
Proof.
  intros Hd Hok.
  assert (HasMulti f items d = (map (fun it => fst (Has f it d)) items, None)) as Hm.
  { unfold HasMulti. apply (hasMultiLoop_spec f d Hd items [] Hok). }
  rewrite Hm. cbn [fst].
  split; [done|]. split; [by rewrite length_map|]. split.
  - intros i it Hi. split.
    + by rewrite list_lookup_fmap, Hi.
    + rewrite Forall_forall in Hok.
      assert (it ∈ items) as Hin by (apply list_elem_of_lookup; eauto).
      specialize (Hok it Hin). unfold Has.
      destruct (encodeKeyFunc f it) as [key err]. cbn in Hok. by subst err.
  - intros a p -> Ha Hp. cbn [map]. by rewrite Ha, Hp.
Qed.

Lemma C7_HasMulti_matches_Has_witness :
  HasMulti Sample.retrieval [Sample.chunk2; Sample.chunk1; Sample.chunk2] Sample.store13 =
  ([false; true; false], None).
Proof.
  assert (DB.ascending Sample.store13) as Hd by (cbn; repeat split).
  assert (Forall (fun it => snd (encodeKeyFunc Sample.retrieval it) = None)
            [Sample.chunk2; Sample.chunk1; Sample.chunk2]) as Hok
    by (repeat constructor).
  destruct (C7_HasMulti_matches_Has Sample.retrieval
              [Sample.chunk2; Sample.chunk1; Sample.chunk2] Sample.store13 Hd Hok)
    as (_ & _ & _ & H).
  apply (H Sample.chunk2 Sample.chunk1); reflexivity.
Defined.

(** ** Fill *)

Lemma fillLoop_step_filled (f : Index) (d : DB.store) (item r : Item)
    (front rest : list Item) (n : nat) :
  filled f d item r ->
  fillLoop f (Txn.GetBatch d) (S n) (length front) (front ++ item :: rest) =
  fillLoop f (Txn.GetBatch d) n (S (length front)) (front ++ r :: rest).
Proof.
  intros (key & val & decoded & Hk & Hl & Hv & ->).
  cbn [fillLoop]. rewrite list_lookup_middle by done.
  rewrite Hk. unfold Txn.Get, Txn.GetBatch. rewrite Hl, Hv.
  rewrite insert_app_r_alt by lia. by rewrite Nat.sub_diag.
Qed.

Lemma fillLoop_step_fails (f : Index) (d : DB.store) (item : Item) (e : error)
    (front rest : list Item) (n : nat) :
  fill_fails f d item e ->
  fillLoop f (Txn.GetBatch d) (S n) (length front) (front ++ item :: rest) =
  (front ++ item :: rest, Some e).
Proof.
  intros H. cbn [fillLoop]. rewrite list_lookup_middle by done.
  unfold Txn.Get, Txn.GetBatch.
  destruct H as [(key & Hk)|[(key & Hk & Hl & ->)|(key & val & decoded & Hk & Hl & Hv)]].
  - by rewrite Hk.
  - by rewrite Hk, Hl.
  - by rewrite Hk, Hl, Hv.
Qed.

Lemma fillLoop_filled_prefix (f : Index) (d : DB.store) (pre pre' : list Item) :
  Forall2 (filled f d) pre pre' ->
  forall front rest n,
    fillLoop f (Txn.GetBatch d) (length pre + n) (length front) (front ++ pre ++ rest) =
    fillLoop f (Txn.GetBatch d) n (length (front ++ pre')) (front ++ pre' ++ rest).
Proof.
  induction 1 as [|item r pre pre' Hitem Hpre IH]; intros front rest n.
  - by rewrite app_nil_r.
  - cbn [length Nat.add app].
    rewrite (fillLoop_step_filled f d item r front (pre ++ rest) (length pre + n) Hitem).
    replace (S (length front)) with (length (front ++ [r]))
      by (rewrite length_app; cbn; lia).
    replace (front ++ r :: pre ++ rest) with ((front ++ [r]) ++ pre ++ rest)
      by (by rewrite <- app_assoc).
    rewrite IH. by rewrite <- !app_assoc.
Qed.

(** C8: [Fill] stops at the first entry whose key does not encode, whose
    key is absent (reported as [ErrNotFound]) or whose value does not
    decode, and returns that error; the entries before it have been
    replaced in the slice by [decoded.Merge(original)], the failing entry
    and those after it are unchanged.  When no entry fails, every entry is
    replaced and the error is nil. *)
Theorem C8_Fill_fails_fast (f : Index) (d : DB.store) :
  (forall pre pre' x post e,
      Forall2 (filled f d) pre pre' ->
      fill_fails f d x e ->
      Fill f (pre ++ x :: post) d = (pre' ++ x :: post, Some e)) /\
  (forall items items',
      Forall2 (filled f d) items items' ->
      Fill f items d = (items', None)).
Proof.
  split.
  - intros pre pre' x post e Hpre Hx. unfold Fill.
    rewrite length_app. cbn [length].
    pose proof (fillLoop_filled_prefix f d pre pre' Hpre [] (x :: post) (S (length post)))
      as E.
    cbn [app length] in E. rewrite E.
    by apply (fillLoop_step_fails f d x e pre' post (length post)).
  - intros items items' H. unfold Fill.
    pose proof (fillLoop_filled_prefix f d items items' H [] [] 0%nat) as E.
    rewrite Nat.add_0_r, !app_nil_r in E. cbn [app] in E.
    change (length (@nil Item)) with 0%nat in E. rewrite E.
    destruct (length items'); reflexivity.
Qed.

Lemma C8_Fill_fails_fast_witness :
  Fill Sample.retrieval
    [mkItem (Some [0; 1]) None 0 0 0 0 5; Sample.chunk9; Sample.chunk2;
     mkItem (Some [0; 3]) None 0 0 0 0 0]
    Sample.store13 =
  ([mkItem (Some [0; 1]) (Some [104; 105]) 0 0 0 0 5;
    mkItem (Some [0; 9]) (Some []) 0 0 0 0 0;
    Sample.chunk2; mkItem (Some [0; 3]) None 0 0 0 0 0],
   Some ErrNotFound).
Proof.
  destruct (C8_Fill_fails_fast Sample.retrieval Sample.store13) as [Hfail _].
  apply (Hfail [mkItem (Some [0; 1]) None 0 0 0 0 5; Sample.chunk9]
               [mkItem (Some [0; 1]) (Some [104; 105]) 0 0 0 0 5;
                mkItem (Some [0; 9]) (Some []) 0 0 0 0 0]
               Sample.chunk2 [mkItem (Some [0; 3]) None 0 0 0 0 0] ErrNotFound).
  - constructor; [|constructor; [|constructor]].
    + exists [1; 0; 1], [104; 105], (mkItem None (Some [104; 105]) 0 0 0 0 0).
      repeat split.
    + exists [1; 0; 9], [], (mkItem None (Some []) 0 0 0 0 0).
      repeat split.
  - right; left. exists [1; 0; 2]. repeat split.
Defined.

(** * Further properties *)

(** ** The algebra of Merge *)

Lemma zero_field (f : field) (a : Item) :
  is_zero (get_field f a) = true -> get_field f a = get_field f zeroItem.
Proof.
  destruct f; cbn; intros H;
    first [ by destruct (Address a) | by destruct (Data a)
          | by apply Z.eqb_eq in H as -> ].
Qed.

(** X1: the zero item is a unit of [Merge] on both sides, and merging an
    item with itself changes nothing. *)
Theorem Merge_unit_idempotent (a : Item) :
  Merge a zeroItem = a /\ Merge zeroItem a = a /\ Merge a a = a.
Proof.
  repeat split; apply Item_ext; intros f; rewrite Merge_get_field.
  - destruct (is_zero (get_field f a)) eqn:E; [|done]. symmetry. by apply zero_field.
  - by rewrite is_zero_zeroItem.
  - by destruct (is_zero (get_field f a)).
Qed.

(** X2: [Merge] is associative, whether or not the items' non-zero fields
    overlap. *)
Theorem Merge_assoc (a b c : Item) :
  Merge (Merge a b) c = Merge a (Merge b c).
Proof.
  apply Item_ext; intros f. rewrite !Merge_get_field.
  destruct (is_zero (get_field f a)) eqn:Ea; [done|]. by rewrite Ea.
Qed.

(** X3: two items merge to the same item in either order exactly when
    they agree on every field that is non-zero in both. *)
Theorem Merge_comm_iff (a b : Item) :
  Merge a b = Merge b a <->
  forall f, is_zero (get_field f a) = false -> is_zero (get_field f b) = false ->
            get_field f a = get_field f b.
Proof.
  split.
  - intros H f Ha Hb.
    assert (get_field f (Merge a b) = get_field f (Merge b a)) as E by (by rewrite H).
    rewrite !Merge_get_field, Ha, Hb in E. done.
  - intros H. apply Item_ext; intros f. rewrite !Merge_get_field.
    destruct (is_zero (get_field f a)) eqn:Ea, (is_zero (get_field f b)) eqn:Eb; try done.
    + by rewrite (zero_field f a Ea), (zero_field f b Eb).
    + by apply H.
Qed.

Lemma Merge_comm_iff_witness :
  Merge (mkItem (Some [1]) None 0 7 0 0 0) (mkItem (Some [1]) (Some [2]) 0 0 3 0 0) =
  Merge (mkItem (Some [1]) (Some [2]) 0 0 3 0 0) (mkItem (Some [1]) None 0 7 0 0 0).
Proof.
  apply (Merge_comm_iff (mkItem (Some [1]) None 0 7 0 0 0)
           (mkItem (Some [1]) (Some [2]) 0 0 3 0 0)).
  intros f; destruct f; cbn; intros Ha Hb; first [done | reflexivity].
Defined.

(** ** incByteSlice as a counter and as a range bound *)

Lemma be_value_app (a b : bytes) :
  be_value (a ++ b) = be_value a * 256 ^ Z.of_nat (length b) + be_value b.
Proof.
  induction a as [|x a IH]; cbn [app be_value]; [lia|].
  rewrite IH, length_app, Nat2Z.inj_add, Z.pow_add_r by lia. ring.
Qed.

Lemma be_value_all255 (mid : bytes) :
  Forall (fun y => y = 255) mid -> be_value mid = 256 ^ Z.of_nat (length mid) - 1.
Proof.
  induction 1 as [|x mid -> Hmid IH]; cbn [be_value length]; [done|].
  rewrite IH, Nat2Z.inj_succ, Z.pow_succ_r by lia. ring.
Qed.

Lemma be_value_zeros (n : nat) : be_value (replicate n 0) = 0.
Proof. induction n as [|n IH]; cbn [replicate be_value]; [done|]. rewrite IH. lia. Qed.

(** X4: when [incByteSlice] returns a slice, the number it denotes (most
    significant byte first) is the number of the argument plus one; when
    it returns nil, the argument denotes the largest number of its length. *)
Theorem incByteSlice_adds_one (b : bytes) :
  wf_bytes b ->
  match incByteSlice b with
  | Some next => be_value next = be_value b + 1
  | None => be_value b = 256 ^ Z.of_nat (length b) - 1
  end.
Proof.
  intros Hb. destruct (last_non255 b) as [H|(pre & x & mid & -> & Hx & Hmid)].
  - rewrite incByteSlice_all255 by done. by apply be_value_all255.
  - rewrite incByteSlice_found by done.
    assert (is_byte x) as Hbx by (apply Forall_app in Hb as [_ Hb]; by inversion Hb).
    unfold is_byte in Hbx. rewrite Z.mod_small by lia.
    rewrite !be_value_app. cbn [be_value length].
    rewrite be_value_zeros, (be_value_all255 mid Hmid), length_replicate. ring.
Qed.

Lemma incByteSlice_adds_one_witness :
  match incByteSlice [1; 255; 255] with
  | Some next => be_value next = be_value [1; 255; 255] + 1
  | None => be_value [1; 255; 255] = 256 ^ Z.of_nat (length [1; 255; 255]) - 1
  end.
Proof.
  apply (incByteSlice_adds_one [1; 255; 255]).
  repeat constructor; unfold is_byte; lia.
Defined.

Lemma HasPrefix_app_iff (s p : bytes) :
  HasPrefix s p = true <-> exists rest, s = p ++ rest.
Proof.
  revert s; induction p as [|x p IH]; intros s.
  - split; [intros _; by exists s | by destruct s].
  - destruct s as [|y s]; cbn [HasPrefix].
    + split; [done | by intros [rest H]].
    + rewrite andb_true_iff, Z.eqb_eq, IH. split.
      * intros [-> [rest ->]]. by exists rest.
      * intros [rest [= -> ->]]. split; [done | by exists rest].
Qed.

(** X5: when [incByteSlice(b)] returns [next], every key that starts with
    [b] is at or after [b] and strictly before [next]: [next] is an
    exclusive upper bound of the keys under the prefix [b], and [next]
    itself is not under it. *)
Theorem incByteSlice_bounds_prefix (b next key : bytes) :
  wf_bytes b ->
  incByteSlice b = Some next ->
  HasPrefix key b = true ->
  Compare key b <> Lt /\ Compare key next = Lt /\ HasPrefix next b = false.
Proof.
  intros Hb Hnext Hp.
  assert (forall key', HasPrefix key' b = true ->
                       Compare key' b <> Lt /\ Compare key' next = Lt) as Hall.
  { intros key' Hp'. apply HasPrefix_app_iff in Hp' as [rest ->]. split.
    - replace b with (b ++ []) at 2 by apply app_nil_r. rewrite Compare_app.
      by destruct rest.
    - destruct (last_non255 b) as [H|(pre & x & mid & -> & Hx & Hmid)].
      + by rewrite incByteSlice_all255 in Hnext.
      + rewrite incByteSlice_found in Hnext by done. injection Hnext as <-.
        assert (is_byte x) as Hbx by (apply Forall_app in Hb as [_ Hb]; by inversion Hb).
        unfold is_byte in Hbx. rewrite Z.mod_small by lia.
        rewrite <- app_assoc, Compare_app. cbn [app Compare].
        destruct (Z.compare_spec x (x + 1)); [lia | done | lia]. }
  destruct (Hall key Hp) as [H1 H2]. split; [done|]. split; [done|].
  destruct (HasPrefix next b) eqn:E; [|done].
  destruct (Hall next E) as [_ Hlt]. by rewrite Compare_refl in Hlt.
Qed.

Lemma incByteSlice_bounds_prefix_witness :
  Compare [1; 255; 9] [1; 255] <> Lt /\ Compare [1; 255; 9] [2; 0] = Lt /\
  HasPrefix [2; 0] [1; 255] = false.
Proof.
  apply (incByteSlice_bounds_prefix [1; 255] [2; 0] [1; 255; 9]).
  - repeat constructor; unfold is_byte; lia.
  - reflexivity.
  - reflexivity.
Defined.

(** ** Keys of different indexes *)

(** X6: a key encoded by an index built by [NewIndex] starts with that
    index's prefix byte and does not start with any other index's byte;
    keys of two indexes with different prefix bytes are never equal; within
    one index two encoded keys are equal exactly when the codec's keys are;
    and decoding an encoded key hands the codec's own key bytes back to
    the user decoder. *)
Theorem NewIndex_key_namespace (id1 id2 : Z) (funcs1 funcs2 : IndexFuncs)
    (a b : Item) (k1 k2 : bytes) :
  encodeKeyFunc (NewIndex id1 funcs1) a = (k1, None) ->
  encodeKeyFunc (NewIndex id2 funcs2) b = (k2, None) ->
  HasPrefix k1 (prefix (NewIndex id1 funcs1)) = true /\
  (id1 <> id2 ->
   k1 <> k2 /\ forall p, HasPrefix k1 (prefix (NewIndex id2 funcs2) ++ p) = false) /\
  (id1 = id2 -> (k1 = k2 <-> fst (EncodeKey funcs1 a) = fst (EncodeKey funcs2 b))) /\
  decodeKeyFunc (NewIndex id1 funcs1) k1 =
    Some (DecodeKey funcs1 (fst (EncodeKey funcs1 a))).
Proof.
  cbn [NewIndex encodeKeyFunc decodeKeyFunc prefix app].
  destruct (EncodeKey funcs1 a) as [ka [e|]]; [done|].
  destruct (EncodeKey funcs2 b) as [kb [e|]]; [done|].
  intros [= <-] [= <-]. cbn [fst HasPrefix].
  split; [by rewrite Z.eqb_refl; destruct ka|].
  split; [|split; [|done]].
  - intros Hne. split; [congruence|].
    intros p. apply Z.eqb_neq in Hne. by rewrite Hne.
  - intros ->. split; [by intros [= ->] | by intros ->].
Qed.

Lemma NewIndex_key_namespace_witness :
  HasPrefix [1; 0; 1] (prefix (NewIndex 1 Sample.retrievalFuncs)) = true /\
  (1 <> 2 ->
   [1; 0; 1] <> [2; 0; 1] /\
   forall p, HasPrefix [1; 0; 1] (prefix (NewIndex 2 Sample.taggingFuncs) ++ p) = false) /\
  (1 = 2 -> ([1; 0; 1] = [2; 0; 1] <->
             fst (EncodeKey Sample.retrievalFuncs Sample.chunk1) =
             fst (EncodeKey Sample.taggingFuncs Sample.chunk1))) /\
  decodeKeyFunc (NewIndex 1 Sample.retrievalFuncs) [1; 0; 1] =
    Some (DecodeKey Sample.retrievalFuncs (fst (EncodeKey Sample.retrievalFuncs Sample.chunk1))).
Proof.
  apply (NewIndex_key_namespace 1 2 Sample.retrievalFuncs Sample.taggingFuncs
           Sample.chunk1 Sample.chunk1 [1; 0; 1] [2; 0; 1]); reflexivity.
Defined.

(** ** Writes and what they leave alone *)

Lemma Equal_false_iff (a b : bytes) : Equal a b = false <-> a <> b.
Proof.
  split.
  - intros H ->. by rewrite Equal_refl in H.
  - intros H. destruct (Equal a b) eqn:E; [|done]. by apply Equal_true in E.
Qed.

Lemma lookup_remove_other (d : DB.store) (key key' : bytes) :
  key <> key' -> DB.lookup (DB.remove key d) key' = DB.lookup d key'.
Proof.
  intros Hne. induction d as [|[k v] d IH]; [done|]. cbn [DB.remove DB.lookup].
  destruct (Equal k key) eqn:E.
  - apply Equal_true in E as ->. by rewrite (proj2 (Equal_false_iff key key') Hne).
  - cbn [DB.lookup]. by rewrite IH.
Qed.

Lemma lookup_remove_same (d : DB.store) (key : bytes) :
  DB.ascending d -> DB.lookup (DB.remove key d) key = None.
Proof.
  induction d as [|[k v] d IH]; intros Hd; [done|]. cbn [DB.remove].
  destruct (Equal k key) eqn:E.
  - apply Equal_true in E as ->. apply (ascending_above key v d key Hd).
    by rewrite Compare_refl.
  - cbn [DB.lookup]. rewrite E. apply IH. by eapply ascending_tail.
Qed.

Lemma remove_absent (d : DB.store) (key : bytes) :
  DB.lookup d key = None -> DB.remove key d = d.
Proof.
  induction d as [|[k v] d IH]; [done|]. cbn [DB.remove DB.lookup].
  destruct (Equal k key); [done|]. intros H. by rewrite IH.
Qed.

Lemma under_insert_other (d : DB.store) (key value p : bytes) :
  HasPrefix key p = false -> DB.under p (DB.insert key value d) = DB.under p d.
Proof.
  intros Hp. unfold DB.under.
  induction d as [|[k v] d IH]; cbn [DB.insert List.filter fst]; [by rewrite Hp|].
  destruct (Compare key k) eqn:E; cbn [List.filter fst].
  - apply Compare_eq in E as <-. by rewrite Hp.
  - by rewrite Hp.
  - by rewrite IH.
Qed.

Lemma under_remove_other (d : DB.store) (key p : bytes) :
  HasPrefix key p = false -> DB.under p (DB.remove key d) = DB.under p d.
Proof.
  intros Hp. unfold DB.under.
  induction d as [|[k v] d IH]; [done|]. cbn [DB.remove List.filter fst].
  destruct (Equal k key) eqn:E.
  - apply Equal_true in E as ->. by rewrite Hp.
  - cbn [List.filter fst]. by rewrite IH.
Qed.

(** What an index with prefix byte [id] reads from the store: the entries
    under its byte.  Two stores that agree there give the same results. *)
Lemma reads_depend_on_own_keys (id : Z) (funcs : IndexFuncs) (d d' : DB.store) :
  (forall k, DB.lookup d' (id :: k) = DB.lookup d (id :: k)) ->
  (forall p, DB.under (id :: p) d' = DB.under (id :: p) d) ->
  (forall kf, Get (NewIndex id funcs) kf d' = Get (NewIndex id funcs) kf d) /\
  (forall kf, Has (NewIndex id funcs) kf d' = Has (NewIndex id funcs) kf d) /\
  Count (NewIndex id funcs) d' = Count (NewIndex id funcs) d /\
  (forall p, First (NewIndex id funcs) p d' = First (NewIndex id funcs) p d) /\
  (forall p, Last (NewIndex id funcs) p d' = Last (NewIndex id funcs) p d).
Proof.
  intros Hl Hu. repeat split.
  - intros kf. unfold Get. cbn [NewIndex encodeKeyFunc app].
    destruct (EncodeKey funcs kf) as [k [e|]]; [done|].
    unfold DB.Get. by rewrite Hl.
  - intros kf. unfold Has. cbn [NewIndex encodeKeyFunc app].
    destruct (EncodeKey funcs kf) as [k [e|]]; [done|].
    unfold DB.Has. by rewrite Hl.
  - unfold Count, DB.CountPrefix. cbn [NewIndex prefix]. by rewrite Hu.
  - intros p. unfold First, DB.First. cbn [NewIndex prefix app]. by rewrite Hu.
  - intros p. unfold Last, DB.Last. cbn [NewIndex prefix app]. by rewrite Hu.
Qed.

(** X7: a [Put] or a [Delete] through an index with prefix byte [id1]
    changes nothing that an index with another prefix byte [id2] reads:
    its [Get], [Has], [Count], [First] and [Last] give the same results
    before and after, whatever the codecs and whether or not the write
    succeeded. *)
Theorem writes_do_not_cross_indexes (id1 id2 : Z) (funcs1 funcs2 : IndexFuncs)
    (i : Item) (d : DB.store) :
  id1 <> id2 ->
  forall d',
    d' = fst (Put (NewIndex id1 funcs1) i d) \/ d' = fst (Delete (NewIndex id1 funcs1) i d) ->
    (forall kf, Get (NewIndex id2 funcs2) kf d' = Get (NewIndex id2 funcs2) kf d) /\
    (forall kf, Has (NewIndex id2 funcs2) kf d' = Has (NewIndex id2 funcs2) kf d) /\
    Count (NewIndex id2 funcs2) d' = Count (NewIndex id2 funcs2) d /\
    (forall p, First (NewIndex id2 funcs2) p d' = First (NewIndex id2 funcs2) p d) /\
    (forall p, Last (NewIndex id2 funcs2) p d' = Last (NewIndex id2 funcs2) p d).
Proof.
  intros Hne d' Hd'.
  assert (forall k p, HasPrefix (id1 :: k) (id2 :: p) = false) as Hp.
  { intros k p. cbn [HasPrefix]. apply Z.eqb_neq in Hne. by rewrite Hne. }
  apply reads_depend_on_own_keys.
  - intros k'. destruct Hd' as [-> | ->].
    + unfold Put. cbn [NewIndex encodeKeyFunc encodeValueFunc app].
      destruct (EncodeKey funcs1 i) as [k [e|]]; [done|].
      destruct (EncodeValue funcs1 i) as [v [e|]]; [done|].
      cbn [DB.Put fst]. apply lookup_insert_other. congruence.
    + unfold Delete. cbn [NewIndex encodeKeyFunc app].
      destruct (EncodeKey funcs1 i) as [k [e|]]; [done|].
      cbn [DB.Delete fst]. apply lookup_remove_other. congruence.
  - intros p. destruct Hd' as [-> | ->].
    + unfold Put. cbn [NewIndex encodeKeyFunc encodeValueFunc app].
      destruct (EncodeKey funcs1 i) as [k [e|]]; [done|].
      destruct (EncodeValue funcs1 i) as [v [e|]]; [done|].
      cbn [DB.Put fst]. by apply under_insert_other.
    + unfold Delete. cbn [NewIndex encodeKeyFunc app].
      destruct (EncodeKey funcs1 i) as [k [e|]]; [done|].
      cbn [DB.Delete fst]. by apply under_remove_other.
Qed.

Lemma writes_do_not_cross_indexes_witness :
  Count (NewIndex 2 Sample.retrievalFuncs)
        (fst (Put (NewIndex 1 Sample.retrievalFuncs) Sample.chunk2 Sample.store13)) =
  Count (NewIndex 2 Sample.retrievalFuncs) Sample.store13.
Proof.
  refine (proj1 (proj2 (proj2
    (writes_do_not_cross_indexes 1 2 Sample.retrievalFuncs Sample.retrievalFuncs
       Sample.chunk2 Sample.store13 _ _ (or_introl eq_refl))))).
  lia.
Defined.

(** ** Put, Delete and what the reads see afterwards *)

Lemma insert_insert_same (d : DB.store) (key value value' : bytes) :
  DB.insert key value' (DB.insert key value d) = DB.insert key value' d.
Proof.
  induction d as [|[k v] d IH]; cbn [DB.insert].
  - by rewrite Compare_refl.
  - destruct (Compare key k) eqn:E; cbn [DB.insert].
    + by rewrite Compare_refl.
    + by rewrite Compare_refl.
    + by rewrite E, IH.
Qed.

(** X8: after a successful [Put(i)] the store holds [i]'s encoded value
    under [i]'s encoded key, [Has(i)] is true, every other key reads as
    before, the keys stay ascending, and a later [Put] under the same key
    replaces the value: the store after both is the store after the second
    alone, so repeating a [Put] changes nothing. *)
Theorem Put_then_read (f : Index) (i : Item) (d d' : DB.store) :
  Put f i d = (d', None) ->
  exists key value,
    encodeKeyFunc f i = (key, None) /\
    encodeValueFunc f i = (value, None) /\
    DB.Get d' key = (value, None) /\
    Has f i d' = (true, None) /\
    (forall key', key' <> key -> DB.lookup d' key' = DB.lookup d key') /\
    (DB.ascending d -> DB.ascending d') /\
    (forall i2 d2, fst (encodeKeyFunc f i2) = key ->
                   Put f i2 d = (d2, None) -> Put f i2 d' = (d2, None)) /\
    Put f i d' = (d', None).
Proof.
  unfold Put.
  destruct (encodeKeyFunc f i) as [key [e|]] eqn:Hk; [done|].
  destruct (encodeValueFunc f i) as [value [e|]] eqn:Hv; [done|].
  unfold DB.Put. intros [= <-]. exists key, value.
  split; [done|]. split; [done|].
  split; [unfold DB.Get; by rewrite lookup_insert_same|].
  split; [unfold Has, DB.Has; by rewrite Hk, lookup_insert_same|].
  split; [intros key' Hne; apply lookup_insert_other; congruence|].
  split; [apply insert_ascending|].
  split.
  - intros i2 d2. destruct (encodeKeyFunc f i2) as [key2 [e|]]; [done|].
    cbn [fst]. intros ->.
    destruct (encodeValueFunc f i2) as [value2 [e|]]; [done|].
    by rewrite insert_insert_same.
  - by rewrite insert_insert_same.
Qed.

Lemma Put_then_read_witness :
  exists key value,
    encodeKeyFunc Sample.retrieval Sample.chunk2 = (key, None) /\
    encodeValueFunc Sample.retrieval Sample.chunk2 = (value, None) /\
    DB.Get (DB.insert [1; 0; 2] [106] Sample.store13) key = (value, None) /\
    Has Sample.retrieval Sample.chunk2 (DB.insert [1; 0; 2] [106] Sample.store13) =
      (true, None) /\
    (forall key', key' <> key ->
        DB.lookup (DB.insert [1; 0; 2] [106] Sample.store13) key' =
        DB.lookup Sample.store13 key') /\
    (DB.ascending Sample.store13 ->
     DB.ascending (DB.insert [1; 0; 2] [106] Sample.store13)) /\
    (forall i2 d2, fst (encodeKeyFunc Sample.retrieval i2) = key ->
        Put Sample.retrieval i2 Sample.store13 = (d2, None) ->
        Put Sample.retrieval i2 (DB.insert [1; 0; 2] [106] Sample.store13) = (d2, None)) /\
    Put Sample.retrieval Sample.chunk2 (DB.insert [1; 0; 2] [106] Sample.store13) =
      (DB.insert [1; 0; 2] [106] Sample.store13, None).
Proof.
  apply (Put_then_read Sample.retrieval Sample.chunk2 Sample.store13
           (DB.insert [1; 0; 2] [106] Sample.store13)).
  reflexivity.
Defined.

(** X9: after a successful [Delete] on a store with ascending keys, [Has]
    is false and [Get] fails with [ErrNotFound] for the deleted key
    fields, every other key reads as before, and the keys stay ascending;
    deleting a key that is not stored leaves the store as it was. *)
Theorem Delete_then_read (f : Index) (keyFields : Item) (d d' : DB.store) :
  DB.ascending d ->
  Delete f keyFields d = (d', None) ->
  Has f keyFields d' = (false, None) /\
  Get f keyFields d' = (zeroItem, Some ErrNotFound) /\
  (forall key', key' <> fst (encodeKeyFunc f keyFields) ->
                DB.lookup d' key' = DB.lookup d key') /\
  DB.ascending d' /\
  (Has f keyFields d = (false, None) -> d' = d).
Proof.
  intros Hd. unfold Delete, Has, Get.
  destruct (encodeKeyFunc f keyFields) as [key [e|]] eqn:Hk; [done|].
  unfold DB.Delete, DB.Has, DB.Get. intros [= <-]. cbn [fst].
  rewrite (lookup_remove_same d key Hd).
  split; [done|]. split; [done|].
  split; [intros key' Hne; apply lookup_remove_other; congruence|].
  split; [by apply remove_ascending|].
  destruct (DB.lookup d key) eqn:El; [done|]. intros _. by apply remove_absent.
Qed.

Lemma Delete_then_read_witness :
  Has Sample.retrieval Sample.chunk1 (DB.remove [1; 0; 1] Sample.store13) = (false, None) /\
  Get Sample.retrieval Sample.chunk1 (DB.remove [1; 0; 1] Sample.store13) =
    (zeroItem, Some ErrNotFound) /\
  (forall key', key' <> fst (encodeKeyFunc Sample.retrieval Sample.chunk1) ->
      DB.lookup (DB.remove [1; 0; 1] Sample.store13) key' = DB.lookup Sample.store13 key') /\
  DB.ascending (DB.remove [1; 0; 1] Sample.store13) /\
  (Has Sample.retrieval Sample.chunk1 Sample.store13 = (false, None) ->
   DB.remove [1; 0; 1] Sample.store13 = Sample.store13).
Proof.
  apply (Delete_then_read Sample.retrieval Sample.chunk1 Sample.store13
           (DB.remove [1; 0; 1] Sample.store13)).
  - cbn; repeat split.
  - reflexivity.
Defined.

(** X10: when the key encoder fails with [e], no operation writes: [Put]
    and [Delete] return the store they were given, [PutInBatch] and
    [DeleteInBatch] the batch they were given, each with [e]; [Get], [Has]
    and [CountFrom] return their zero result with [e], and [Iterate] from
    that item returns [e] without running the callback.  When only the
    value encoder fails, [Put] and [PutInBatch] likewise write nothing. *)
Theorem failed_encoding_writes_nothing (f : Index) (i : Item) (e : error) :
  (forall key, encodeKeyFunc f i = (key, Some e) ->
     (forall d, Put f i d = (d, Some e)) /\
     (forall d, Delete f i d = (d, Some e)) /\
     (forall b, PutInBatch f b i = (b, Some e)) /\
     (forall b, DeleteInBatch f b i = (b, Some e)) /\
     (forall d, Get f i d = (zeroItem, Some e)) /\
     (forall d, Has f i d = (false, Some e)) /\
     (forall d, CountFrom f i d = (0, Some e)) /\
     (forall (S : Type) (fn : IndexIterFunc S) skip p d s,
         Iterate f fn (Some (mkIterateOptions (Some i) skip p)) d s = Some (Some e, s))) /\
  (forall key value,
     encodeKeyFunc f i = (key, None) -> encodeValueFunc f i = (value, Some e) ->
     (forall d, Put f i d = (d, Some e)) /\
     (forall b, PutInBatch f b i = (b, Some e))).
Proof.
  split.
  - intros key Hk. unfold Put, Delete, PutInBatch, DeleteInBatch, Get, Has, CountFrom, Iterate.
    cbn [StartFrom]. rewrite Hk. by repeat split.
  - intros key value Hk Hv. unfold Put, PutInBatch. rewrite Hk, Hv. by repeat split.
Qed.

Lemma failed_encoding_writes_nothing_witness :
  Put Sample.retrieval Sample.nokey Sample.store13 =
    (Sample.store13, Some (ErrOther "address is nil")) /\
  Put Sample.retrieval Sample.chunk9 Sample.store13 =
    (Sample.store13, Some (ErrOther "data is nil")).
Proof.
  split.
  - apply (proj1 (failed_encoding_writes_nothing Sample.retrieval Sample.nokey
                    (ErrOther "address is nil")) []). reflexivity.
  - apply (proj2 (failed_encoding_writes_nothing Sample.retrieval Sample.chunk9
                    (ErrOther "data is nil")) [1; 0; 9] []); reflexivity.
Defined.

(** ** Count *)

Lemma under_insert_count (d : DB.store) (key value p : bytes) :
  DB.ascending d -> HasPrefix key p = true ->
  Z.of_nat (length (DB.under p (DB.insert key value d))) =
  Z.of_nat (length (DB.under p d)) +
  (match DB.lookup d key with Some _ => 0 | None => 1 end).
Proof.
  intros Hd Hp. unfold DB.under.
  induction d as [|[k v] d IH]; cbn [DB.insert DB.lookup List.filter fst].
  - rewrite Hp. cbn. lia.
  - destruct (Compare key k) eqn:E; cbn [List.filter fst].
    + apply Compare_eq in E as <-. rewrite Equal_refl, Hp. cbn [length]. lia.
    + rewrite (Equal_false_of_Compare k key) by (by rewrite Compare_antisym, E).
      rewrite (ascending_above k v d key Hd) by (by rewrite E).
      rewrite Hp. destruct (HasPrefix k p); cbn [length]; lia.
    + rewrite (Equal_false_of_Compare k key) by (by rewrite Compare_antisym, E).
      specialize (IH (ascending_tail _ _ Hd)).
      destruct (HasPrefix k p); cbn [length]; lia.
Qed.

Lemma under_remove_count (d : DB.store) (key p : bytes) :
  HasPrefix key p = true ->
  Z.of_nat (length (DB.under p (DB.remove key d))) =
  Z.of_nat (length (DB.under p d)) -
  (match DB.lookup d key with Some _ => 1 | None => 0 end).
Proof.
  intros Hp. unfold DB.under.
  induction d as [|[k v] d IH]; cbn [DB.remove DB.lookup List.filter fst]; [lia|].
  destruct (Equal k key) eqn:E.
  - apply Equal_true in E as ->. rewrite Hp. cbn [length]. lia.
  - cbn [List.filter fst]. destruct (HasPrefix k p); cbn [length]; lia.
Qed.

(** X11: on a store with ascending keys, a successful [Put] through an
    index built by [NewIndex] raises that index's [Count] by one when the
    key was not stored and leaves it unchanged when it was; a successful
    [Delete] lowers it by one when the key was stored and leaves it
    unchanged when it was not. *)
Theorem Count_tracks_writes (id : Z) (funcs : IndexFuncs) (i : Item) (d d' : DB.store) :
  DB.ascending d ->
  let f := NewIndex id funcs in
  (Put f i d = (d', None) ->
   Count f d' = (fst (Count f d) + (if fst (Has f i d) then 0 else 1), None)) /\
  (Delete f i d = (d', None) ->
   Count f d' = (fst (Count f d) - (if fst (Has f i d) then 1 else 0), None)).
Proof.
  intros Hd f. unfold Put, Delete, Has, Count, DB.CountPrefix, DB.Has.
  cbn [f NewIndex encodeKeyFunc encodeValueFunc prefix app fst].
  destruct (EncodeKey funcs i) as [k [e|]]; [done|].
  assert (HasPrefix (id :: k) [id] = true) as Hp
    by (cbn [HasPrefix]; rewrite Z.eqb_refl; by destruct k).
  split.
  - destruct (EncodeValue funcs i) as [v [e|]]; [done|].
    unfold DB.Put. intros [= <-]. cbn [fst].
    rewrite (under_insert_count d (id :: k) v [id] Hd Hp).
    by destruct (DB.lookup d (id :: k)).
  - unfold DB.Delete. intros [= <-]. cbn [fst].
    rewrite (under_remove_count d (id :: k) [id] Hp).
    by destruct (DB.lookup d (id :: k)).
Qed.

Lemma Count_tracks_writes_witness :
  Count (NewIndex 1 Sample.retrievalFuncs) (DB.insert [1; 0; 2] [106] Sample.store13) =
  (fst (Count (NewIndex 1 Sample.retrievalFuncs) Sample.store13) +
   (if fst (Has (NewIndex 1 Sample.retrievalFuncs) Sample.chunk2 Sample.store13)
    then 0 else 1), None).
Proof.
  assert (DB.ascending Sample.store13) as Hd by (cbn; repeat split).
  apply (proj1 (Count_tracks_writes 1 Sample.retrievalFuncs Sample.chunk2 Sample.store13
                  (DB.insert [1; 0; 2] [106] Sample.store13) Hd)).
  reflexivity.
Defined.

(** ** Fill against Get *)

Lemma fillLoop_length (f : Index) (t : Txn.txn) (n : nat) :
  forall i items, length (fst (fillLoop f t n i items)) = length items.
Proof.
  induction n as [|n IH]; intros i items; cbn [fillLoop]; [done|].
  destruct (items !! i) as [item|]; [|done].
  destruct (encodeKeyFunc f item) as [key [e|]]; [done|].
  destruct (Txn.Get t key) as [val [e|]].
  { by destruct (error_eqb e ErrKeyNotFound). }
  destruct (decodeValueFunc f item val) as [decoded [e|]]; [done|].
  by rewrite IH, length_insert.
Qed.

Lemma Get_ok_filled (f : Index) (d : DB.store) (item out : Item) :
  Get f item d = (out, None) -> filled f d item out.
Proof.
  unfold Get, DB.Get, filled.
  destruct (encodeKeyFunc f item) as [key [e|]] eqn:Ek; [done|].
  destruct (DB.lookup d key) as [val|] eqn:El; [|done].
  destruct (decodeValueFunc f item val) as [decoded [e|]] eqn:E; [done|].
  intros [= <-]. exists key, val, decoded. by repeat split.
Qed.

Lemma Get_error_fill_fails (f : Index) (d : DB.store) (item out : Item) (e : error) :
  Get f item d = (out, Some e) -> fill_fails f d item e.
Proof.
  unfold Get, DB.Get, fill_fails.
  destruct (encodeKeyFunc f item) as [key [e1|]] eqn:Ek.
  { intros [= _ ->]. left. by exists key. }
  destruct (DB.lookup d key) as [val|] eqn:El.
  2:{ intros [= _ <-]. right; left. exists key. by repeat split. }
  destruct (decodeValueFunc f item val) as [decoded [e2|]] eqn:E; [|done].
  intros [= _ ->]. right; right. exists key, val, decoded. by repeat split.
Qed.

Lemma Get_ok_all_filled (f : Index) (d : DB.store) (items : list Item) :
  Forall (fun it => snd (Get f it d) = None) items ->
  Forall2 (filled f d) items (map (fun it => fst (Get f it d)) items).
Proof.
  induction 1 as [|it items Hit Hrest IH]; cbn [map]; constructor; [|done].
  apply Get_ok_filled. destruct (Get f it d) as [out err]. cbn in Hit |- *. by subst.
Qed.

(** X12: [Fill] is [Get] applied in place: it never changes the length of
    the slice; when [Get] succeeds on every entry, each entry is replaced
    by what [Get] returns for it and the error is nil; and when [Get]
    first fails on some entry, [Fill] returns that same error, with the
    entries before it replaced by their [Get] results and the rest left
    as they were. *)
Theorem Fill_agrees_with_Get (f : Index) (d : DB.store) :
  (forall items, length (fst (Fill f items d)) = length items) /\
  (forall items,
      Forall (fun it => snd (Get f it d) = None) items ->
      Fill f items d = (map (fun it => fst (Get f it d)) items, None)) /\
  (forall pre x post out e,
      Forall (fun it => snd (Get f it d) = None) pre ->
      Get f x d = (out, Some e) ->
      Fill f (pre ++ x :: post) d =
      (map (fun it => fst (Get f it d)) pre ++ x :: post, Some e)).
Proof.
  split; [intros items; apply fillLoop_length|]. split.
  - intros items H. unfold Fill.
    pose proof (fillLoop_filled_prefix f d items _ (Get_ok_all_filled f d items H)
                  [] [] 0%nat) as E.
    rewrite Nat.add_0_r, !app_nil_r in E. cbn [app] in E.
    change (length (@nil Item)) with 0%nat in E. rewrite E.
    by destruct (length (map (fun it => fst (Get f it d)) items)).
  - intros pre x post out e Hpre Hx. unfold Fill.
    rewrite length_app. cbn [length].
    pose proof (fillLoop_filled_prefix f d pre _ (Get_ok_all_filled f d pre Hpre)
                  [] (x :: post) (S (length post))) as E.
    cbn [app length] in E. rewrite E.
    apply fillLoop_step_fails. by eapply Get_error_fill_fails.
Qed.

Lemma Fill_agrees_with_Get_witness :
  Fill Sample.retrieval [Sample.chunk9; Sample.chunk2; Sample.chunk1] Sample.store13 =
  (map (fun it => fst (Get Sample.retrieval it Sample.store13)) [Sample.chunk9]
     ++ Sample.chunk2 :: [Sample.chunk1],
   Some ErrNotFound).
Proof.
  apply (proj2 (proj2 (Fill_agrees_with_Get Sample.retrieval Sample.store13))
           [Sample.chunk9] Sample.chunk2 [Sample.chunk1] zeroItem ErrNotFound).
  - repeat constructor.
  - reflexivity.
Defined.

(** ** HasMulti when a key does not encode *)

Lemma hasMultiLoop_error (f : Index) (t : Txn.txn) (x : Item) (key : bytes) (e : error)
    (post : list Item) :
  encodeKeyFunc f x = (key, Some e) ->
  forall pre i have,
    Forall (fun it => snd (encodeKeyFunc f it) = None) pre ->
    hasMultiLoop f t (pre ++ x :: post) i have = ([], Some e).
Proof.
  intros Hx. induction pre as [|it pre IH]; intros i have Hpre; cbn [app hasMultiLoop].
  - by rewrite Hx.
  - inversion Hpre as [|? ? Hit Hrest]; subst.
    destruct (encodeKeyFunc f it) as [k err]. cbn [snd] in Hit. subst err.
    destruct (Txn.Seek t k) as [[k' v']|]; [destruct (Equal k k')|]; by apply IH.
Qed.

(** X13: when the key of some item does not encode, [HasMulti] returns no
    booleans at all, together with the error of the first such item, the
    error [Has] reports for that item; the items before it, although
    already looked up, leave no trace in the result. *)
Theorem HasMulti_first_error (f : Index) (d : DB.store) (pre : list Item) (x : Item)
    (post : list Item) (key : bytes) (e : error) :
  Forall (fun it => snd (encodeKeyFunc f it) = None) pre ->
  encodeKeyFunc f x = (key, Some e) ->
  HasMulti f (pre ++ x :: post) d = ([], Some e) /\
  Has f x d = (false, Some e).
Proof.
  intros Hpre Hx. split.
  - unfold HasMulti. by eapply hasMultiLoop_error.
  - unfold Has. by rewrite Hx.
Qed.

Lemma HasMulti_first_error_witness :
  HasMulti Sample.retrieval ([Sample.chunk1] ++ Sample.nokey :: [Sample.chunk3])
    Sample.store13 = ([], Some (ErrOther "address is nil")) /\
  Has Sample.retrieval Sample.nokey Sample.store13 =
    (false, Some (ErrOther "address is nil")).
Proof.
  apply (HasMulti_first_error Sample.retrieval Sample.store13 [Sample.chunk1]
           Sample.nokey [Sample.chunk3] []).
  - repeat constructor.
  - reflexivity.
Defined.

(** ** What Iterate visits *)

Lemma HasPrefix_not_below (k pfx : bytes) :
  HasPrefix k pfx = true -> Compare k pfx <> Lt.
Proof.
  intros H. apply HasPrefix_app_iff in H as [rest ->].
  replace pfx with (pfx ++ []) at 2 by apply app_nil_r.
  rewrite Compare_app. by destruct rest.
Qed.

(** A key at or after the prefix that does not carry it lies beyond every
    key that does; so does every later key. *)
Lemma beyond_prefix (pfx : bytes) :
  forall k k', Compare k pfx <> Lt -> HasPrefix k pfx = false ->
               Compare k k' = Lt -> HasPrefix k' pfx = false.
Proof.
  induction pfx as [|p pfx IH]; intros k k' Hge Hnp Hlt.
  - by destruct k.
  - destruct k as [|x k]; [done|]. destruct k' as [|y k']; [done|].
    cbn [Compare HasPrefix] in *.
    destruct (Z.compare_spec x p) as [->| |Hxp]; [|done|].
    + rewrite Z.eqb_refl in Hnp. cbn [andb] in Hnp.
      destruct (Z.compare_spec p y) as [->| |]; [|apply andb_false_intro1; lia|done].
      rewrite Z.eqb_refl. cbn [andb]. by apply (IH k k').
    + apply andb_false_intro1. apply Z.eqb_neq.
      destruct (Z.compare_spec x y); [lia | lia | done].
Qed.

Lemma ascending_all_after (k v : bytes) (d : DB.store) :
  DB.ascending ((k, v) :: d) -> Forall (fun kv => Compare k (fst kv) = Lt) d.
Proof.
  revert k v; induction d as [|[k' v'] d IH]; intros k v [Hk Hd]; constructor; [done|].
  eapply Forall_impl; [apply (IH k' v' Hd)|].
  intros [k2 v2] H. cbn [fst] in *. by eapply Compare_trans_lt.
Qed.

Lemma under_nil_beyond (pfx k v : bytes) (d : DB.store) :
  DB.ascending ((k, v) :: d) -> Compare k pfx <> Lt -> HasPrefix k pfx = false ->
  DB.under pfx d = [].
Proof.
  intros Hd Hge Hnp. pose proof (ascending_all_after k v d Hd) as Hall. clear Hd.
  unfold DB.under. induction Hall as [|[k' v'] d Hk' Hall IH]; [done|].
  cbn [List.filter fst] in *.
  by rewrite (beyond_prefix pfx k k' Hge Hnp Hk'), IH.
Qed.

Lemma not_below_after (k k' key : bytes) :
  Compare k key <> Lt -> Compare k k' = Lt -> Compare k' key <> Lt.
Proof.
  intros Hge Hlt H. apply Hge. by eapply Compare_trans_lt.
Qed.

Lemma seek_ascending_from (d : DB.store) (key : bytes) :
  DB.ascending d ->
  DB.ascending (DB.seek d key) /\
  Forall (fun kv => Compare (fst kv) key <> Lt) (DB.seek d key).
Proof.
  induction d as [|[k v] d IH]; intros Hd; [by split|]. cbn [DB.seek].
  assert (Compare k key <> Lt ->
          DB.ascending ((k, v) :: d) /\
          Forall (fun kv => Compare (fst kv) key <> Lt) ((k, v) :: d)) as Hhere.
  { intros Hge. split; [done|]. constructor; [done|].
    eapply Forall_impl; [apply (ascending_all_after k v d Hd)|].
    intros [k' v'] Hlt. cbn [fst] in *. by eapply not_below_after. }
  destruct (Compare k key) eqn:E.
  - by apply Hhere.
  - apply IH. by eapply ascending_tail.
  - by apply Hhere.
Qed.

Lemma under_seek (d : DB.store) (pfx : bytes) :
  DB.under pfx (DB.seek d pfx) = DB.under pfx d.
Proof.
  induction d as [|[k v] d IH]; [done|]. cbn [DB.seek].
  destruct (Compare k pfx) eqn:E; [done| |done].
  rewrite IH. unfold DB.under. cbn [List.filter fst].
  destruct (HasPrefix k pfx) eqn:Hp; [|done].
  by apply HasPrefix_not_below in Hp.
Qed.

Lemma iterLoop_under {S : Type} (f : Index) (fn : IndexIterFunc S) (sk pfx : bytes)
    (kvs : DB.store) :
  DB.ascending kvs ->
  Forall (fun kv => Compare (fst kv) pfx <> Lt) kvs ->
  forall s,
    DB.iterLoop sk false (iterateCallback f fn pfx) kvs s =
    DB.iterLoop sk false (iterateCallback f fn pfx) (DB.under pfx kvs) s.
Proof.
  induction kvs as [|[k v] kvs IH]; intros Hd Hge s; [done|].
  inversion Hge as [|? ? Hk Hrest]; subst. cbn [fst] in Hk.
  unfold DB.under. cbn [List.filter fst].
  destruct (HasPrefix k pfx) eqn:Hp.
  - cbn [DB.iterLoop andb].
    destruct (iterateCallback f fn pfx k v s) as [[[[|] [e|]] s']|]; try done.
    apply IH; [by eapply ascending_tail | done].
  - fold (DB.under pfx kvs). rewrite (under_nil_beyond pfx k v kvs Hd Hk Hp).
    cbn [DB.iterLoop andb]. by rewrite iterateCallback_outside.
Qed.

Lemma iterLoop_collect (f : Index) (sk pfx : bytes) (kvs : DB.store) (items : list Item) :
  Forall2 (decodes_to f pfx) kvs items ->
  forall acc,
    DB.iterLoop sk false (iterateCallback f collect pfx) kvs acc = Some (None, acc ++ items).
Proof.
  induction 1 as [|[k v] item kvs items Hkv Hrest IH]; intros acc; cbn [DB.iterLoop andb].
  - by rewrite app_nil_r.
  - unfold decodes_to in Hkv. cbn [fst snd] in Hkv.
    unfold iterateCallback at 1. rewrite Hkv. unfold collect at 1.
    rewrite IH. by rewrite <- app_assoc.
Qed.

(** X14: on a store with ascending keys, [Iterate] without a start item
    (nil options, or options with only a common prefix) is a walk over
    exactly the entries whose key starts with the index prefix followed by
    the common prefix, in ascending key order: entries of other indexes
    and entries outside the common prefix are never decoded and never
    reach the callback.  With a callback that collects and decoders that
    accept every such entry, the result is the list of their items. *)
Theorem Iterate_visits_own_entries {S : Type} (f : Index) (fn : IndexIterFunc S)
    (options : option IterateOptions) (d : DB.store) :
  DB.ascending d ->
  let o := match options with
           | None => mkIterateOptions None false []
           | Some o => o
           end in
  StartFrom o = None ->
  SkipStartFromItem o = false ->
  (forall s,
      Iterate f fn options d s =
      DB.iterLoop (prefix f ++ Prefix o) false (iterateCallback f fn (prefix f ++ Prefix o))
        (DB.under (prefix f ++ Prefix o) d) s) /\
  (forall items acc,
      Forall2 (decodes_to f (prefix f ++ Prefix o)) (DB.under (prefix f ++ Prefix o) d) items ->
      Iterate f collect options d acc = Some (None, acc ++ items)).
Proof.
  intros Hd o Hstart Hskip.
  assert (forall (T : Type) (g : IndexIterFunc T) s,
      Iterate f g options d s =
      DB.iterLoop (prefix f ++ Prefix o) false (iterateCallback f g (prefix f ++ Prefix o))
        (DB.under (prefix f ++ Prefix o) d) s) as Hwalk.
  { intros T g s. unfold Iterate. fold o. rewrite Hstart, Hskip. unfold DB.Iterate.
    destruct (seek_ascending_from d (prefix f ++ Prefix o) Hd) as [Ha Hge].
    rewrite (iterLoop_under f g _ _ _ Ha Hge). by rewrite under_seek. }
  split; [apply Hwalk|].
  intros items acc Hitems. rewrite Hwalk. by apply iterLoop_collect.
Qed.

Lemma Iterate_visits_own_entries_witness :
  Iterate Sample.retrieval collect None Sample.store13 [] =
  Some (None, [] ++ [mkItem (Some [0; 1]) (Some [104; 105]) 0 0 0 0 0;
                     mkItem (Some [0; 3]) (Some [107]) 0 0 0 0 0;
                     mkItem (Some [0; 9]) (Some []) 0 0 0 0 0]).
Proof.
  assert (DB.ascending Sample.store13) as Hd by (cbn; repeat split).
  apply (proj2 (Iterate_visits_own_entries Sample.retrieval collect None Sample.store13
                  Hd eq_refl eq_refl)).
  repeat constructor.
Defined.

(** ** Where Iterate starts *)

Lemma iterLoop_skip {S : Type} (sk : bytes)
    (cb : bytes -> bytes -> S -> option ((bool * option error) * S)) (kvs : DB.store) :
  forall s,
    DB.iterLoop sk true cb kvs s =
    DB.iterLoop sk false cb (List.filter (fun kv => negb (Equal (fst kv) sk)) kvs) s.
Proof.
  induction kvs as [|[k v] kvs IH]; intros s; [done|].
  cbn [DB.iterLoop List.filter fst andb].
  destruct (Equal k sk); cbn [negb]; [apply IH|].
  cbn [DB.iterLoop andb].
  destruct (cb k v s) as [[[[|] [e|]] s']|]; first [done | apply IH].
Qed.

(** X15: [Iterate] from a start item whose key encodes to [startKey]
    walks the stored entries from [startKey] on; with [SkipStartFromItem]
    it walks the same entries without the one stored under [startKey]
    itself.  On a store with ascending keys every key of the walk is at or
    after the start key, and strictly after it when the start item is
    skipped. *)
Theorem Iterate_from_start {S : Type} (f : Index) (fn : IndexIterFunc S) (start : Item)
    (p : bytes) (d : DB.store) (startKey : bytes) :
  encodeKeyFunc f start = (startKey, None) ->
  (forall s,
      Iterate f fn (Some (mkIterateOptions (Some start) false p)) d s =
      DB.iterLoop startKey false (iterateCallback f fn (prefix f ++ p)) (DB.seek d startKey) s) /\
  (forall s,
      Iterate f fn (Some (mkIterateOptions (Some start) true p)) d s =
      DB.iterLoop startKey false (iterateCallback f fn (prefix f ++ p))
        (List.filter (fun kv => negb (Equal (fst kv) startKey)) (DB.seek d startKey)) s) /\
  (DB.ascending d ->
   Forall (fun kv => Compare (fst kv) startKey <> Lt) (DB.seek d startKey) /\
   Forall (fun kv => Compare (fst kv) startKey = Gt)
     (List.filter (fun kv => negb (Equal (fst kv) startKey)) (DB.seek d startKey))).
Proof.
  intros Hk. split; [|split].
  - intros s. unfold Iterate. cbn [StartFrom SkipStartFromItem Prefix]. by rewrite Hk.
  - intros s. unfold Iterate. cbn [StartFrom SkipStartFromItem Prefix]. rewrite Hk.
    unfold DB.Iterate. apply iterLoop_skip.
  - intros Hd. destruct (seek_ascending_from d startKey Hd) as [_ Hge].
    split; [done|].
    induction Hge as [|[k v] kvs Hkv Hrest IH]; [done|].
    cbn [List.filter fst] in *. unfold Equal at 1.
    destruct (Compare k startKey) eqn:E; cbn [negb]; [done|done|].
    constructor; [done|exact IH].
Qed.

Lemma Iterate_from_start_witness :
  Iterate Sample.retrieval collect
    (Some (mkIterateOptions (Some Sample.chunk1) true [])) Sample.store13 [] =
  DB.iterLoop [1; 0; 1] false (iterateCallback Sample.retrieval collect
                                 (prefix Sample.retrieval ++ []))
    (List.filter (fun kv => negb (Equal (fst kv) [1; 0; 1]))
       (DB.seek Sample.store13 [1; 0; 1])) [].
Proof.
  apply (proj1 (proj2 (Iterate_from_start Sample.retrieval collect Sample.chunk1 []
                         Sample.store13 [1; 0; 1] eq_refl))).
Defined.

(** ** Errors during Iterate *)




(** ** The round trip through the iterating operations *)





(** ** Package trojan *)

(** X18: the bytes of an envelope are its topic followed by its payload;
    cutting them at the topic's length gives both back, so two envelopes
    with topics of the same size and the same bytes are the same
    envelope. *)
Theorem Envelope_Bytes_unambiguous (e1 e2 : Trojan.Envelope) :
  length (Trojan.Bytes e1) = (length (Trojan.Topic e1) + length (Trojan.Payload e1))%nat /\
  take (length (Trojan.Topic e1)) (Trojan.Bytes e1) = Trojan.Topic e1 /\
  drop (length (Trojan.Topic e1)) (Trojan.Bytes e1) = Trojan.Payload e1 /\
  (length (Trojan.Topic e1) = length (Trojan.Topic e2) ->
   Trojan.Bytes e1 = Trojan.Bytes e2 -> e1 = e2).
Proof.
  destruct e1 as [t1 p1], e2 as [t2 p2]. unfold Trojan.Bytes. cbn.
  split; [apply length_app|].
  split; [by rewrite take_app_length|].
  split; [by rewrite drop_app_length|].
  intros Hl H. apply app_inj_1 in H as [-> ->]; done.
Qed.

Lemma Envelope_Bytes_unambiguous_witness :
  Trojan.mkEnvelope [1; 2] [3] = Trojan.mkEnvelope [1; 2] [3].
Proof.
  apply (proj2 (proj2 (proj2 (Envelope_Bytes_unambiguous
           (Trojan.mkEnvelope [1; 2] [3]) (Trojan.mkEnvelope [1; 2] [3]))))); reflexivity.
Defined.

Lemma runHandlers_app {W : Type} (hs1 hs2 : list (Trojan.Handler W)) (payload : bytes) (w : W) :
  Trojan.runHandlers (hs1 ++ hs2) payload w =
  Trojan.runHandlers hs2 payload (Trojan.runHandlers hs1 payload w).
Proof. revert w; induction hs1 as [|h hs1 IH]; intros w; cbn; [done|]. apply IH. Qed.

Lemma processLoop_app {W : Type} (r : Trojan.Registry W) (ds1 ds2 : list Trojan.Decoder)
    (data : bytes) (w : W) :
  Trojan.processLoop r (ds1 ++ ds2) data w =
  Trojan.processLoop r ds2 data (Trojan.processLoop r ds1 data w).
Proof.
  revert w; induction ds1 as [|dec ds1 IH]; intros w; cbn [app Trojan.processLoop]; [done|].
  destruct (dec data); apply IH.
Qed.

Lemma processLoop_idle {W : Type} (r : Trojan.Registry W) (ds : list Trojan.Decoder)
    (data : bytes) :
  Forall (fun dec : Trojan.Decoder =>
            match dec data with
            | None => True
            | Some envelope => Trojan.handlersFor r (Trojan.Topic envelope) = []
            end) ds ->
  forall w, Trojan.processLoop r ds data w = w.
Proof.
  induction 1 as [|dec ds Hdec Hrest IH]; intros w; cbn [Trojan.processLoop]; [done|].
  destruct (dec data) as [envelope|]; [|apply IH].
  rewrite Hdec. cbn [Trojan.runHandlers]. apply IH.
Qed.

Lemma handlersFor_AddHandlers {W : Type} (r : Trojan.Registry W) (topic topic' : bytes)
    (hs : list (Trojan.Handler W)) :
  Trojan.handlersFor (Trojan.AddHandlers r topic hs) topic' =
  if decide (topic = topic') then Trojan.handlersFor r topic ++ hs
  else Trojan.handlersFor r topic'.
Proof.
  unfold Trojan.handlersFor, Trojan.AddHandlers. cbn [Trojan.handlers].
  rewrite lookup_insert. by destruct (decide (topic = topic')).
Qed.

(** X19: [Process] runs no handler, and so leaves everything as it was,
    when every decoder either rejects the chunk or decodes it to a topic
    without handlers; in particular on a new registry and on a registry
    without decoders, whatever handlers it has. *)
Theorem Process_without_match {W : Type} (r : Trojan.Registry W) (data : bytes) (w : W) :
  (Forall (fun dec : Trojan.Decoder =>
             match dec data with
             | None => True
             | Some envelope => Trojan.handlers r !! Trojan.Topic envelope = None
             end) (Trojan.decoders r) ->
   Trojan.Process r data w = w) /\
  Trojan.Process Trojan.NewRegistry data w = w /\
  (forall topic hs,
      Trojan.Process (Trojan.AddHandlers Trojan.NewRegistry topic hs) data w = w).
Proof.
  split; [|split; done].
  intros H. unfold Trojan.Process. apply processLoop_idle.
  eapply Forall_impl; [exact H|]. intros dec Hdec. cbn beta in Hdec |- *.
  destruct (dec data) as [envelope|]; [|done].
  unfold Trojan.handlersFor. by rewrite Hdec.
Qed.

Lemma Process_without_match_witness :
  Trojan.Process
    (Trojan.AddHandlers
       (Trojan.AddDecoder Trojan.NewRegistry (fun _ => Some (Trojan.mkEnvelope [7] [1])))
       [8] [Trojan.chandler])
    [5] [] = [].
Proof.
  apply (proj1 (Process_without_match
                  (Trojan.AddHandlers
                     (Trojan.AddDecoder Trojan.NewRegistry
                        (fun _ => Some (Trojan.mkEnvelope [7] [1])))
                     [8] [Trojan.chandler]) [5] [])).
  repeat constructor.
Defined.

Lemma processLoop_other_topic {W : Type} (r : Trojan.Registry W) (topic : bytes)
    (hs : list (Trojan.Handler W)) (ds : list Trojan.Decoder) (data : bytes) :
  Forall (fun dec : Trojan.Decoder =>
            forall envelope, dec data = Some envelope -> Trojan.Topic envelope <> topic) ds ->
  forall w,
    Trojan.processLoop (Trojan.AddHandlers r topic hs) ds data w =
    Trojan.processLoop r ds data w.
Proof.
  induction 1 as [|dec ds Hdec Hrest IH]; intros w; cbn [Trojan.processLoop]; [done|].
  destruct (dec data) as [envelope|] eqn:E; [|apply IH].
  rewrite handlersFor_AddHandlers.
  destruct (decide (topic = Trojan.Topic envelope)) as [->|_]; [|apply IH].
  by specialize (Hdec envelope eq_refl).
Qed.

(** X20: handlers added for a topic are appended to those the topic
    already has and leave every other topic's handlers and the decoders
    untouched.  They are not run on a chunk that no decoder decodes to
    their topic; and when exactly one decoder accepts a chunk, with their
    topic, they are run on its payload in the order given, after the
    handlers registered before. *)
Theorem AddHandlers_routing {W : Type} (r : Trojan.Registry W) (topic : bytes)
    (hs : list (Trojan.Handler W)) :
  Trojan.handlersFor (Trojan.AddHandlers r topic hs) topic = Trojan.handlersFor r topic ++ hs /\
  (forall topic', topic' <> topic ->
     Trojan.handlersFor (Trojan.AddHandlers r topic hs) topic' = Trojan.handlersFor r topic') /\
  Trojan.decoders (Trojan.AddHandlers r topic hs) = Trojan.decoders r /\
  (forall data w,
     Forall (fun dec : Trojan.Decoder =>
               forall envelope, dec data = Some envelope -> Trojan.Topic envelope <> topic)
       (Trojan.decoders r) ->
     Trojan.Process (Trojan.AddHandlers r topic hs) data w = Trojan.Process r data w) /\
  (forall data w ds1 dec ds2 payload,
     Trojan.decoders r = ds1 ++ dec :: ds2 ->
     Forall (fun dec' : Trojan.Decoder => dec' data = None) (ds1 ++ ds2) ->
     dec data = Some (Trojan.mkEnvelope topic payload) ->
     Trojan.Process (Trojan.AddHandlers r topic hs) data w =
     Trojan.runHandlers hs payload (Trojan.Process r data w)).
Proof.
  split; [|split; [|split; [done|split]]].
  - rewrite handlersFor_AddHandlers. by destruct (decide (topic = topic)).
  - intros topic' Hne. rewrite handlersFor_AddHandlers.
    by destruct (decide (topic = topic')) as [->|].
  - intros data w H. unfold Trojan.Process. cbn [Trojan.AddHandlers Trojan.decoders].
    by apply processLoop_other_topic.
  - intros data w ds1 dec ds2 payload Hds Hrej Hdec.
    apply Forall_app in Hrej as [H1 H2].
    assert (forall (r' : Trojan.Registry W) ds w',
               Forall (fun dec' : Trojan.Decoder => dec' data = None) ds ->
               Trojan.processLoop r' ds data w' = w') as Hidle.
    { intros r' ds w' H. apply processLoop_idle.
      eapply Forall_impl; [exact H|]. intros dec' Hd. cbn beta in Hd |- *. by rewrite Hd. }
    unfold Trojan.Process. cbn [Trojan.AddHandlers Trojan.decoders]. rewrite Hds.
    rewrite !processLoop_app. cbn [Trojan.processLoop]. rewrite Hdec.
    rewrite !Hidle by done. cbn [Trojan.Topic Trojan.Payload].
    rewrite handlersFor_AddHandlers.
    destruct (decide (topic = topic)); [|done].
    by rewrite runHandlers_app.
Qed.

Lemma AddHandlers_routing_witness :
  Trojan.Process
    (Trojan.AddHandlers
       (Trojan.AddDecoder Trojan.NewRegistry (fun _ => Some (Trojan.mkEnvelope [7] [1])))
       [8] [Trojan.chandler])
    [5] [] =
  Trojan.Process
    (Trojan.AddDecoder Trojan.NewRegistry (fun _ => Some (Trojan.mkEnvelope [7] [1])))
    [5] [].
Proof.
  apply (proj1 (proj2 (proj2 (proj2
           (AddHandlers_routing
              (Trojan.AddDecoder Trojan.NewRegistry
                 (fun _ => Some (Trojan.mkEnvelope [7] [1])))
              [8] [Trojan.chandler])))) [5] []).
  constructor; [|constructor].
  intros envelope [= <-]. cbn. congruence.
Defined.

(** X21: the test decoder's round trip: for a topic of [TopicSize] bytes
    and a checksum of four bytes, decoding what [Encode] produced gives the
    topic and the payload back; input shorter than a topic and a checksum
    is rejected.  Hence, as the package's test checks for one chunk, a
    registry with this decoder and a handler for the topic delivers exactly
    the payload to the handler, and delivers nothing to a handler
    registered for another topic. *)
Theorem fooWrapper_round_trip (TopicSize : nat) (checksum : bytes -> bytes)
    (topic payload : bytes) :
  length topic = TopicSize ->
  (forall x, length (checksum x) = 4%nat) ->
  Trojan.fooDecode TopicSize checksum (fst (Trojan.fooEncode checksum topic payload)) =
    Some (Trojan.mkEnvelope topic payload) /\
  (forall b, (length b < TopicSize + 4)%nat -> Trojan.fooDecode TopicSize checksum b = None) /\
  Trojan.Process
    (Trojan.AddHandlers
       (Trojan.AddDecoder Trojan.NewRegistry (Trojan.fooDecode TopicSize checksum))
       topic [Trojan.chandler])
    (fst (Trojan.fooEncode checksum topic payload)) [] = [payload] /\
  (forall topic', topic' <> topic ->
     Trojan.Process
       (Trojan.AddHandlers
          (Trojan.AddDecoder Trojan.NewRegistry (Trojan.fooDecode TopicSize checksum))
          topic' [Trojan.chandler])
       (fst (Trojan.fooEncode checksum topic payload)) [] = []).
Proof.
  intros Ht Hsum.
  assert (Trojan.fooDecode TopicSize checksum (fst (Trojan.fooEncode checksum topic payload)) =
          Some (Trojan.mkEnvelope topic payload)) as Hrt.
  { unfold Trojan.fooDecode, Trojan.fooEncode. cbn [fst].
    assert (length ((topic ++ payload) ++ checksum (topic ++ payload)) - 4 =
            length (topic ++ payload))%nat as Hr
      by (rewrite length_app, Hsum; lia).
    rewrite Hr.
    replace (length ((topic ++ payload) ++ checksum (topic ++ payload)) <? TopicSize + 4)%nat
      with false
      by (symmetry; apply Nat.ltb_ge; rewrite !length_app, Hsum, Ht; lia).
    rewrite take_app_length, drop_app_length, Equal_refl. cbn [negb].
    subst TopicSize. rewrite <- app_assoc.
    by rewrite take_app_length, drop_app_length. }
  split; [exact Hrt|]. split.
  - intros b Hb. unfold Trojan.fooDecode.
    by apply Nat.ltb_lt in Hb as ->.
  - unfold Trojan.Process.
    cbn [Trojan.AddHandlers Trojan.AddDecoder Trojan.NewRegistry Trojan.decoders
         Trojan.handlers app Trojan.processLoop].
    rewrite Hrt. cbn [Trojan.Topic Trojan.Payload].
    split.
    + rewrite handlersFor_AddHandlers. by destruct (decide (topic = topic)).
    + intros topic' Hne. rewrite handlersFor_AddHandlers.
      by destruct (decide (topic' = topic)).
Qed.

Lemma fooWrapper_round_trip_witness :
  Trojan.Process
    (Trojan.AddHandlers
       (Trojan.AddDecoder Trojan.NewRegistry
          (Trojan.fooDecode 2 (fun x => [Z.of_nat (length x); 0; 0; 0])))
       [42; 0] [Trojan.chandler])
    (fst (Trojan.fooEncode (fun x => [Z.of_nat (length x); 0; 0; 0]) [42; 0] [102; 111; 111]))
    [] = [[102; 111; 111]].
Proof.
  apply (proj1 (proj2 (proj2
           (fooWrapper_round_trip 2 (fun x => [Z.of_nat (length x); 0; 0; 0])
              [42; 0] [102; 111; 111] eq_refl (fun _ => eq_refl))))).
Defined.
